(** * Docker-compose log manager: the log filter, the two output writers and
    the reconciliation step ([diff], [OnChange]) of
    [internal/engine/docker_compose_log_manager.go], embedded and verified. *)

From Stdlib Require Import ZArith Lia.
From Stdlib Require Import Strings.Byte.
From stdpp Require Import base option list gmap strings fin_maps.

Open Scope Z_scope.

(** ** Go values shared by the whole file *)

(** The two values of the [error] interface that reach this code from the
    [context] package, and what a downstream [io.Writer] may report.  [nil]
    is [None] at type [option error]. *)
Inductive error :=
  | Canceled
  | DeadlineExceeded
  | WriteError (code : Z).

(** [model.ManifestName] is a Go string type. *)
Module model.
Abbreviation ManifestName := string (only parsing).
End model.

(** A [[]byte] is the list of its bytes; Go's [len] is an [int]. *)
Definition len {A} (p : list A) : Z := Z.of_nat (length p).

(** ** The log filter *)

Module Bytes.

(** [bytes.Equal]: same length and the same bytes. *)
Fixpoint Equal (a b : list byte) : bool :=
  match a, b with
  | [], [] => true
  | x :: a', y :: b' => Byte.eqb x y && Equal a' b'
  | _, _ => false
  end.

(** [bytes.HasPrefix(s, prefix)]:
    [len(s) >= len(prefix) && Equal(s[0:len(prefix)], prefix)]. *)
Definition HasPrefix (s prefix : list byte) : bool :=
  (len prefix <=? len s) && Equal (take (length prefix) s) prefix.

End Bytes.

(** The banner docker-compose prints when it attaches: ["Attaching to "]. *)
Definition noise_prefix : list byte :=
  Eval cbv in String.list_byte_of_string "Attaching to ".

Definition shouldFilterDCLog (p : list byte) : bool :=
  if Bytes.HasPrefix p noise_prefix then true else false.

(** ** The output writers *)

(** [DockerComposeLogAction], the event handed to the store. *)
Record DockerComposeLogAction := {
  ManifestName : model.ManifestName;
  Log : list byte;
}.

(** What the two sinks downstream of the writers have received so far: the
    chunks written to the display writer ([logger.Get(ctx).Writer(InfoLvl)])
    and the actions dispatched to the store, each in call order.  A call to a
    sink is visible here and nowhere else, so "the sink was not invoked" is
    "its log did not grow". *)
Record Sinks := {
  displayed : list (list byte);
  dispatched : list DockerComposeLogAction;
}.

(** Result of [Write(p []byte) (n int, err error)]. *)
Definition write_result : Type := Z * option error.

(** Go's [io.Writer] interface. *)
Class Writer (W : Type) := Write : W → list byte → Sinks → write_result * Sinks.

(** The display writer is external: all that is known of it is that it is an
    [io.Writer].  Its answer to a chunk is left arbitrary (it may depend on
    everything written before); each call is recorded. *)
Record DisplayWriter := {
  answer : list (list byte) → list byte → write_result;
}.

#[export] Instance DisplayWriter_Write : Writer DisplayWriter := λ w p s,
  (answer w (displayed s) p,
   {| displayed := displayed s ++ [p]; dispatched := dispatched s |}).

(** ** The store, as far as this file uses it *)

(** Modelled from the spec: the [model] package is not part of the sources at
    hand.  The spec gives a desired source as [{name, backendKind, locator}];
    this is the [backendKind], with docker-compose the supported backend. *)
Inductive backendKind := DockerCompose | OtherBackend.

(** Modelled from the spec: what [Manifest.DCInfo()] returns, of which [diff]
    reads the config path (the spec's "source-specific locator (e.g., a
    config path) used to open its stream"). *)
Record DCInfo := {
  ConfigPath : string;
}.

(** Modelled from the spec: [model.Manifest], a desired source
    [{name, backendKind, locator}]. *)
Record Manifest := {
  Name : model.ManifestName;
  backend : backendKind;
  locator : string;
}.

(** Modelled from the spec: [Manifest.IsDC()], whether the source is "flagged
    as belonging to the supported backend". *)
Definition IsDC (m : Manifest) : bool :=
  match backend m with DockerCompose => true | OtherBackend => false end.

(** Modelled from the spec: [Manifest.DCInfo()]; the locator of a
    docker-compose source is its config path. *)
Definition Manifest_DCInfo (m : Manifest) : DCInfo :=
  {| ConfigPath := locator m |}.

(** Modelled from the spec: [store.ManifestState], declared outside the
    sources at hand; [diff] reads its [Manifest] field only.  (The map below
    holds pointers to these in Go; a nil pointer there would make [diff]
    panic and is not a value of this type.) *)
Record ManifestState := {
  Manifest_of : Manifest;
}.

(** Modelled from the spec: [store.EngineState], declared outside the sources
    at hand; these are the fields [diff] reads, the "global watching flag"
    and the collection of named sources. *)
Record EngineState := {
  WatchMounts : bool;
  ManifestStates : gmap model.ManifestName ManifestState;
}.

(** [store.RStore]: [RLockState] hands out the engine state (the read lock
    has no effect on a single thread of control), [Dispatch] is
    fire-and-forget and queues the action. *)
Record RStore := {
  RLockState : EngineState;
}.

Definition Dispatch (_ : RStore) (a : DockerComposeLogAction) (s : Sinks) : Sinks :=
  {| displayed := displayed s; dispatched := dispatched s ++ [a] |}.

Record DockerComposeLogActionWriter := {
  store : RStore;
  manifestName : model.ManifestName;
}.

(** [append([]byte{}, p...)] copies [p] into a fresh slice; lists are values,
    so the copy is [[] ++ p]. *)
#[export] Instance DockerComposeLogActionWriter_Write :
  Writer DockerComposeLogActionWriter := λ w p s,
  if shouldFilterDCLog p then ((len p, None), s)
  else
    let s := Dispatch (store w)
               {| ManifestName := manifestName w; Log := [] ++ p |} s in
    ((len p, None), s).

Record DockerComposeGlobalLogWriter (W : Type) := {
  writer : W;
}.
Arguments writer {W} _.

#[export] Instance DockerComposeGlobalLogWriter_Write `{Writer W} :
  Writer (DockerComposeGlobalLogWriter W) := λ w p s,
  if shouldFilterDCLog p then ((len p, None), s)
  else Write (writer w) p s.

(** ** Go runtime objects that [diff] and [OnChange] act on *)

Module time.

(** A [time.Time], as nanoseconds since the Unix epoch. *)
Definition Time : Type := Z.

(** [time.Unix(sec, nsec)]. *)
Definition Unix (sec nsec : Z) : Time := sec * 1000000000 + nsec.

End time.

(** Contexts and channels are reference objects: a value of type
    [context.Context] or [chan time.Time] is the index of its cell in the
    heap, and copies of a watch record share the cells they point to. *)
Definition ctx_id := nat.
Definition chan_id := nat.

(** A context cell: the contexts it was derived from (nearest first) and what
    [Err()] answers.  Cancelling a context cancels everything derived from
    it before [cancel] returns, so [err] alone is the answer. *)
Record ctx_cell := {
  ancestors : list ctx_id;
  err : option error;
}.

(** A buffered channel: [make(chan time.Time, cap)] and the values queued. *)
Record chan_cell := {
  cap : nat;
  buf : list time.Time;
}.

(** The [cancel] field is the [context.CancelFunc] of some context. *)
Inductive CancelFunc := CancelOf (c : ctx_id).

Record dockerComposeLogWatch := {
  ctx : ctx_id;
  cancel : CancelFunc;
  name : model.ManifestName;
  dcConfigPath : string;
  startWatchTime : time.Time;
  terminationTime : chan_id;
}.

(** What [OnChange] does to the outside, in program order. *)
Inductive Event :=
  | EvCancel (f : CancelFunc)              (* the cancel function [f] was called *)
  | EvGo (w : dockerComposeLogWatch).      (* [go m.consumeLogs(w, st)] *)

(** The state the manager runs in: the heap of contexts and channels, the
    manager's own map ([m.watches], reached through the pointer receiver),
    and the events so far.  The [dcc] field of the manager is only used to
    open streams and is left out. *)
Record State := {
  contexts : list ctx_cell;
  channels : list chan_cell;
  watches : gmap model.ManifestName dockerComposeLogWatch;
  trace : list Event;
}.

Definition set_contexts (f : list ctx_cell → list ctx_cell) (σ : State) : State :=
  {| contexts := f (contexts σ); channels := channels σ;
     watches := watches σ; trace := trace σ |}.
Definition set_channels (f : list chan_cell → list chan_cell) (σ : State) : State :=
  {| contexts := contexts σ; channels := f (channels σ);
     watches := watches σ; trace := trace σ |}.
Definition set_watches
    (f : gmap model.ManifestName dockerComposeLogWatch →
         gmap model.ManifestName dockerComposeLogWatch) (σ : State) : State :=
  {| contexts := contexts σ; channels := channels σ;
     watches := f (watches σ); trace := trace σ |}.
Definition emit (e : Event) (σ : State) : State :=
  {| contexts := contexts σ; channels := channels σ;
     watches := watches σ; trace := trace σ ++ [e] |}.

(** [NewDockerComposeLogManager]: a manager with an empty map, on a given
    heap. *)
Definition NewDockerComposeLogManager
    (cs : list ctx_cell) (chs : list chan_cell) : State :=
  {| contexts := cs; channels := chs; watches := ∅; trace := [] |}.

(** *** Computations that may block *)

(** A call either returns (with a new state) or is stuck on a channel
    operation that nothing in this thread can complete. *)
Inductive outcome (A : Type) :=
  | Returns (a : A)
  | Blocked.
Arguments Returns {A} a.
Arguments Blocked {A}.

Definition M (A : Type) : Type := State → outcome (A * State).

#[export] Instance M_ret : MRet M := λ A a σ, Returns (a, σ).
#[export] Instance M_bind : MBind M := λ A B k c σ,
  match c σ with
  | Returns (a, σ') => k a σ'
  | Blocked => Blocked
  end.
Definition gets {A} (f : State → A) : M A := λ σ, Returns (f σ, σ).
Definition modify (f : State → State) : M unit := λ σ, Returns (tt, f σ).

(** [for _, x := range l { acc = body(acc, x) }] *)
Fixpoint for_range {A B} (body : B → A → M B) (l : list A) (acc : B) : M B :=
  match l with
  | [] => mret acc
  | x :: l' => acc' ← body acc x; for_range body l' acc'
  end.

(** *** Contexts *)

(** [c.Err()].  An index outside the heap stands for a context that is never
    cancelled, like [context.Background()]. *)
Definition Err_in (cs : list ctx_cell) (c : ctx_id) : option error :=
  match cs !! c with
  | Some cell => err cell
  | None => None
  end.

Definition ctx_Err (c : ctx_id) : M (option error) :=
  gets (λ σ, Err_in (contexts σ) c).

Definition ancestors_of (cs : list ctx_cell) (c : ctx_id) : list ctx_id :=
  match cs !! c with
  | Some cell => ancestors cell
  | None => []
  end.

(** [context.WithCancel(parent)]: a new context; it is born cancelled, with
    the parent's error, when the parent is already done. *)
Definition WithCancel (parent : ctx_id) : M (ctx_id * CancelFunc) :=
  e ← ctx_Err parent;
  c ← gets (λ σ, length (contexts σ));
  modify (set_contexts (λ cs,
    cs ++ [{| ancestors := parent :: ancestors_of cs parent; err := e |}]));;
  mret (c, CancelOf c).

Definition cancel_cell (c : ctx_id) (i : nat) (cell : ctx_cell) : ctx_cell :=
  if bool_decide (i = c ∨ c ∈ ancestors cell) then
    match err cell with
    | None => {| ancestors := ancestors cell; err := Some Canceled |}
    | Some _ => cell
    end
  else cell.

(** Calling a [CancelFunc]: the context and all contexts derived from it
    get [Canceled], unless they already carry an error. *)
Definition call_cancel (f : CancelFunc) : M unit :=
  let 'CancelOf c := f in
  modify (emit (EvCancel f));;
  modify (set_contexts (imap (cancel_cell c))).

(** *** Channels *)

(** [make(chan time.Time, n)] *)
Definition make_chan (n : nat) : M chan_id :=
  ch ← gets (λ σ, length (channels σ));
  modify (set_channels (λ chs, chs ++ [{| cap := n; buf := [] |}]));;
  mret ch.

(** [<-ch]: takes the oldest queued value; with nothing queued (or on a nil
    channel) the receive does not return. *)
Definition chan_recv (ch : chan_id) : M time.Time := λ σ,
  match channels σ !! ch with
  | Some {| cap := n; buf := t :: q |} =>
      Returns (t, set_channels <[ch := {| cap := n; buf := q |}]> σ)
  | _ => Blocked
  end.

(** [ch <- t]: queues [t] while there is room in the buffer. *)
Definition chan_send (ch : chan_id) (t : time.Time) : M unit := λ σ,
  match channels σ !! ch with
  | Some cell =>
      if bool_decide (length (buf cell) < cap cell)%nat then
        Returns (tt, set_channels
                       <[ch := {| cap := cap cell; buf := buf cell ++ [t] |}]> σ)
      else Blocked
  | None => Blocked
  end.

(** ** The manager *)

(** The manifest states stored under their manifest's name, as the store
    keeps them. *)
Definition keyed_by_name (state : EngineState) : Prop :=
  map_Forall (λ k ms, Name (Manifest_of ms) = k) (ManifestStates state).

#[export] Instance keyed_by_name_dec state : Decision (keyed_by_name state).
Proof. unfold keyed_by_name. apply _. Defined.

(** A source is desired when watching is enabled and the state holds a
    docker-compose manifest under the source's name. *)
Definition desired (state : EngineState) (n : model.ManifestName) : Prop :=
  WatchMounts state = true ∧
  ∃ ms, ManifestStates state !! n = Some ms ∧ IsDC (Manifest_of ms) = true.

Section Manager.

(** Go leaves the order of [range] over a map open.  [range_map] is the order
    taken; all that is known of it (and assumed where it matters) is that
    every entry comes up exactly once. *)
Variable range_map : ∀ A : Type, gmap model.ManifestName A → list (model.ManifestName * A).

(** Lines 58 to 68 of [diff]: derive a context, build the record (with a
    channel of capacity one), store it under the manifest's name and append it
    to [setup].  [ctx0] is the parameter of [diff]: the [ctx] declared by
    [:=] inside the loop body does not outlive one round. *)
Definition start_watch (ctx0 : ctx_id) (ms : ManifestState) (dcInfo : DCInfo)
    (startWatchTime : time.Time) (setup : list dockerComposeLogWatch) :
    M (list dockerComposeLogWatch) :=
  '(ctx', cancel') ← WithCancel ctx0;
  ch ← make_chan 1;
  let w := {| ctx := ctx'; cancel := cancel';
              name := Name (Manifest_of ms);
              dcConfigPath := ConfigPath dcInfo;
              startWatchTime := startWatchTime;
              terminationTime := ch |} in
  modify (set_watches <[Name (Manifest_of ms) := w]>);;
  mret (setup ++ [w]).

(** Body of the first loop of [diff], for one [ms]; [setup] is the slice
    built so far. *)
Definition diff_setup (ctx0 : ctx_id) (setup : list dockerComposeLogWatch)
    (ms : ManifestState) : M (list dockerComposeLogWatch) :=
  if negb (IsDC (Manifest_of ms)) then mret setup
  else
    let dcInfo := Manifest_DCInfo (Manifest_of ms) in
    existing ← gets (λ σ, watches σ !! Name (Manifest_of ms));
    match existing with
    | Some existing =>
        e ← ctx_Err (ctx existing);
        match e with
        | None => mret setup
        | Some _ =>
            startWatchTime ← chan_recv (terminationTime existing);
            start_watch ctx0 ms dcInfo startWatchTime setup
        end
    | None => start_watch ctx0 ms dcInfo (time.Unix 0 0) setup
    end.

(** Body of the second loop of [diff].  The loop deletes nothing but the
    entry it is at, so ranging over the map while deleting visits exactly the
    entries the map had when the loop began. *)
Definition diff_teardown (state : EngineState)
    (teardown : list dockerComposeLogWatch)
    (kv : model.ManifestName * dockerComposeLogWatch) :
    M (list dockerComposeLogWatch) :=
  let '(key, value) := kv in
  match ManifestStates state !! key with
  | Some _ => mret teardown
  | None =>
      modify (set_watches (delete key));;
      mret (teardown ++ [value])
  end.

(** [diff]: a [nil] slice is the empty list. *)
Definition diff (ctx0 : ctx_id) (st : RStore) :
    M (list dockerComposeLogWatch * list dockerComposeLogWatch) :=
  let state := RLockState st in
  if negb (WatchMounts state) then mret ([], [])
  else
    setup ← for_range (diff_setup ctx0)
              (snd <$> range_map _ (ManifestStates state)) [];
    ws ← gets watches;
    teardown ← for_range (diff_teardown state) (range_map _ ws) [];
    mret (setup, teardown).

(** [go m.consumeLogs(watch, st)]: the task is launched; it runs on its own
    from here. *)
Definition go_consumeLogs (watch : dockerComposeLogWatch) (st : RStore) : M unit :=
  modify (emit (EvGo watch)).

Definition OnChange (ctx0 : ctx_id) (st : RStore) : M unit :=
  '(setup, teardown) ← diff ctx0 st;
  for_range (λ _ watch, call_cancel (cancel watch)) teardown tt;;
  for_range (λ _ watch, go_consumeLogs watch st) setup tt.

End Manager.

(** The function [consumeLogs] defers first of all, whatever way a task
    leaves it: [watch.terminationTime <- time.Now()], with [now] the clock
    at that moment. *)
Definition consumeLogs_exit (watch : dockerComposeLogWatch) (now : time.Time) : M unit :=
  chan_send (terminationTime watch) now.

(** *** What the manager maintains about its map *)

(** Every record sits under its own name, points to a context and a channel
    that exist, and shares its channel with no other record. *)
Definition manager_inv (σ : State) : Prop :=
  map_Forall (λ k w,
      name w = k ∧
      (ctx w < length (contexts σ))%nat ∧
      (terminationTime w < length (channels σ))%nat) (watches σ) ∧
  map_Forall (λ k1 w1,
      map_Forall (λ k2 w2,
          terminationTime w1 = terminationTime w2 → k1 = k2) (watches σ))
    (watches σ).

#[export] Instance manager_inv_dec σ : Decision (manager_inv σ).
Proof. unfold manager_inv. apply _. Defined.

(** The stop time a task left in a channel, if one is queued. *)
Definition stop_time (σ : State) (ch : chan_id) : option time.Time :=
  match channels σ !! ch with
  | Some cell => head (buf cell)
  | None => None
  end.

(** [diff] would wait at [ms]: a docker-compose manifest whose watch is
    cancelled and whose task has not sent its stop time yet. *)
Definition awaits (σ : State) (ms : ManifestState) : bool :=
  IsDC (Manifest_of ms) &&
  match watches σ !! Name (Manifest_of ms) with
  | Some w =>
      bool_decide (Err_in (contexts σ) (ctx w) ≠ None) &&
      bool_decide (stop_time σ (terminationTime w) = None)
  | None => false
  end.

(** Every task that [diff] has to restart has already reported. *)
Definition ready (state : EngineState) (σ : State) : Prop :=
  map_Forall (λ _ ms, awaits σ ms = false) (ManifestStates state).

#[export] Instance ready_dec state σ : Decision (ready state σ).
Proof. unfold ready. apply _. Defined.

(** The record [diff] builds for [ms] in state [σ], resuming from [t]. *)
Definition started (σ : State) (ms : ManifestState) (t : time.Time) :
    dockerComposeLogWatch :=
  {| ctx := length (contexts σ);
     cancel := CancelOf (length (contexts σ));
     name := Name (Manifest_of ms);
     dcConfigPath := locator (Manifest_of ms);
     startWatchTime := t;
     terminationTime := length (channels σ) |}.

(** The state once that record is in place: one more context (born with
    the error of [ctx0], if it has one), one more channel (empty), and the
    record stored under the manifest's name. *)
Definition with_started (ctx0 : ctx_id) (σ : State) (ms : ManifestState)
    (t : time.Time) : State :=
  {| contexts := contexts σ ++
       [{| ancestors := ctx0 :: ancestors_of (contexts σ) ctx0;
           err := Err_in (contexts σ) ctx0 |}];
     channels := channels σ ++ [{| cap := 1; buf := [] |}];
     watches := <[Name (Manifest_of ms) := started σ ms t]> (watches σ);
     trace := trace σ |}.

(** The names of the manifests the first loop of [diff] comes across. *)
Definition names (l : list ManifestState) : list model.ManifestName :=
  (λ ms, Name (Manifest_of ms)) <$> l.

(** The entries of a slice of watches that belong to source [n]. *)
Definition entries_of (n : model.ManifestName) (l : list dockerComposeLogWatch) :
    list dockerComposeLogWatch :=
  filter (λ w, name w = n) l.

(** Calling the cancel function [f] reaches context [c]: [f] is the cancel
    function of [c] or of a context [c] was derived from. *)
Definition cancels (f : CancelFunc) (cs : list ctx_cell) (c : ctx_id) : Prop :=
  let 'CancelOf ct := f in ct = c ∨ ct ∈ ancestors_of cs c.

#[export] Instance cancels_dec f cs c : Decision (cancels f cs c).
Proof. destruct f. unfold cancels. apply _. Defined.

(** Every record holds the cancel function of its own context. *)
Definition own_cancel (σ : State) : Prop :=
  map_Forall (λ _ w, cancel w = CancelOf (ctx w)) (watches σ).

#[export] Instance CancelFunc_eq_dec : EqDecision CancelFunc.
Proof. solve_decision. Defined.

#[export] Instance own_cancel_dec σ : Decision (own_cancel σ).
Proof. unfold own_cancel. apply _. Defined.

(** ** The temporary-directory fixture *)

Module testutils.
Section TempDirFixture.

(** [filepath.Join], which cleans and joins path elements; any function of
    the elements will do here. *)
Variable Join : list string → string.

(** A [TempDirFixture], as far as paths go: [f.dir.Path()]. *)
Record TempDirFixture := {
  dir_Path : string;
}.

Definition Path (f : TempDirFixture) : string := dir_Path f.

(** [JoinPath(path ...string)]: [p := []string{f.Path()}],
    [p = append(p, path...)], [filepath.Join(p...)]. *)
Definition JoinPath (f : TempDirFixture) (path : list string) : string :=
  let p := [Path f] in
  let p := p ++ path in
  Join p.

(** The loop of [JoinPaths], from index [i] on: [joined[i] = f.JoinPath(p)].
    The index is always within [joined], which was made with the length of
    [paths]. *)
Fixpoint JoinPaths_loop (f : TempDirFixture) (i : nat) (paths : list string)
    (joined : list string) : list string :=
  match paths with
  | [] => joined
  | p :: paths' => JoinPaths_loop f (S i) paths' (<[i := JoinPath f [p]]> joined)
  end.

(** [JoinPaths(paths []string)]: [joined := make([]string, len(paths))],
    a slice of empty strings, filled by the loop. *)
Definition JoinPaths (f : TempDirFixture) (paths : list string) : list string :=
  let joined := replicate (length paths) ""%string in
  JoinPaths_loop f 0 paths joined.

End TempDirFixture.
End testutils.

(** ** The streaming task *)

(** The values of the [error] interface a task can meet: the two the [io]
    package makes itself, and the errors its readers and writers pass on. *)
Inductive io_error :=
  | ErrShortWrite
  | EOF
  | Passed (e : error).

(** A writer of any type, as [io.MultiWriter] takes them. *)
Record AnyWriter := any_writer {
  writer_type : Type;
  writer_Writer : Writer writer_type;
  writer_value : writer_type;
}.
Arguments any_writer {_ _} _.

(** [Write] of the writer [io.MultiWriter(writers...)] returns: each writer
    in turn; the first error, or the first short count, ends the call. *)
Fixpoint MultiWriter_Write (writers : list AnyWriter) (p : list byte)
    (s : Sinks) : (Z * option io_error) * Sinks :=
  match writers with
  | [] => ((len p, None), s)
  | w :: writers' =>
      let '((n, err), s') := @Write _ (writer_Writer w) (writer_value w) p s in
      match err with
      | Some e => ((n, Some (Passed e)), s')
      | None =>
          if negb (n =? len p) then ((n, Some ErrShortWrite), s')
          else MultiWriter_Write writers' p s'
      end
  end.

(** What a reader yields to [io.Copy], call of [Read] by call: reads without
    error, then a read that comes with one ([EOF] at the end of the data). *)
Record Stream := {
  reads : list (list byte);
  last_read : list byte;
  last_err : io_error;
}.

(** One round of the loop of [io.Copy] after [Read] has returned chunk [p]
    ([nr] is [len p]): the chunk, if not empty, goes to [dst]; an error of
    [dst] or a short count is the error to stop with. *)
Definition Copy_write (dst : list byte → Sinks → (Z * option io_error) * Sinks)
    (p : list byte) (written : Z) (s : Sinks) :
    (Z * option io_error) * Sinks :=
  if 0 <? len p then
    let '((nw, ew), s') := dst p s in
    let written := if 0 <? nw then written + nw else written in
    match ew with
    | Some e => ((written, Some e), s')
    | None =>
        if negb (len p =? nw) then ((written, Some ErrShortWrite), s')
        else ((written, None), s')
    end
  else ((written, None), s).

(** [io.Copy(dst, src)], for a [dst] and a [src] without [ReadFrom] and
    [WriteTo]: read, write, until a write fails or a read comes with an
    error; [EOF] is not reported. *)
Fixpoint Copy_loop (dst : list byte → Sinks → (Z * option io_error) * Sinks)
    (rs : list (list byte)) (last : list byte) (er : io_error)
    (written : Z) (s : Sinks) : (Z * option io_error) * Sinks :=
  match rs with
  | p :: rs' =>
      let '((written', err), s') := Copy_write dst p written s in
      match err with
      | Some e => ((written', Some e), s')
      | None => Copy_loop dst rs' last er written' s'
      end
  | [] =>
      let '((written', err), s') := Copy_write dst last written s in
      match err with
      | Some e => ((written', Some e), s')
      | None =>
          match er with
          | EOF => ((written', None), s')
          | _ => ((written', Some er), s')
          end
      end
  end.

Definition Copy (dst : list byte → Sinks → (Z * option io_error) * Sinks)
    (src : Stream) (s : Sinks) : (Z * option io_error) * Sinks :=
  Copy_loop dst (reads src) (last_read src) (last_err src) 0 s.

(** [dockercompose.DockerComposeClient], as [consumeLogs] uses it:
    [StreamLogs(ctx, configPath, serviceName)] opens the stream or fails.
    The stream stands for what [NewHardCancelReader(watch.ctx, readCloser)]
    hands to [io.Copy]; both are outside the sources at hand, so any client
    and any stream are allowed. *)
Record DockerComposeClient := {
  StreamLogs : ctx_id → string → string → error + Stream;
}.

(** What a task does besides writing to the sinks. *)
Inductive TaskEvent :=
  | EvInfof (n : model.ManifestName) (e : io_error)
      (* [Infof("Error streaming %s logs: %v", name, err)] *)
  | EvClose.
      (* [readCloser.Close()] *)

(** The state a task runs in.  Its heap is read when the copy has ended
    ([watch.ctx.Err()]) and written when the task leaves (the deferred
    send): it is the heap of that moment. *)
Record TaskState := {
  heap : State;
  sinks : Sinks;
  task_events : list TaskEvent;
}.

Definition task_log (e : TaskEvent) (τ : TaskState) : TaskState :=
  {| heap := heap τ; sinks := sinks τ; task_events := task_events τ ++ [e] |}.

(** The first deferred function of [consumeLogs], run last:
    [watch.terminationTime <- time.Now()]. *)
Definition consumeLogs_deferred_send (watch : dockerComposeLogWatch)
    (now : time.Time) (τ : TaskState) : outcome TaskState :=
  match consumeLogs_exit watch now (heap τ) with
  | Returns (_, h) =>
      Returns {| heap := h; sinks := sinks τ; task_events := task_events τ |}
  | Blocked => Blocked
  end.

(** [consumeLogs].  [display] is [logger.Get(watch.ctx).Writer(InfoLvl)],
    [now] is the clock when the task leaves. *)
Definition consumeLogs (dcc : DockerComposeClient) (display : DisplayWriter)
    (now : time.Time) (watch : dockerComposeLogWatch) (st : RStore)
    (τ : TaskState) : outcome TaskState :=
  let name := name watch in
  match StreamLogs dcc (ctx watch) (dcConfigPath watch) (name) with
  | inl err =>
      let τ := task_log (EvInfof name (Passed err)) τ in
      consumeLogs_deferred_send watch now τ
  | inr readCloser =>
      let globalLogWriter := {| writer := display |} in
      let actionWriter := {| store := st; manifestName := name |} in
      let multiWriter :=
        MultiWriter_Write [any_writer globalLogWriter; any_writer actionWriter] in
      let '((_, err), s) := Copy multiWriter readCloser (sinks τ) in
      let τ := {| heap := heap τ; sinks := s; task_events := task_events τ |} in
      let τ :=
        match err, Err_in (contexts (heap τ)) (ctx watch) with
        | Some e, None => task_log (EvInfof name e) τ
        | _, _ => τ
        end in
      let τ := task_log EvClose τ in
      consumeLogs_deferred_send watch now τ
  end.

(** A display writer that takes every chunk whole. *)
Definition takes_all (display : DisplayWriter) : Prop :=
  ∀ h p, answer display h p = (len p, None).

(** The chunks that get through: not empty, not filtered. *)
Definition passes (p : list byte) : bool :=
  (0 <? len p) && negb (shouldFilterDCLog p).

(** ** Sample inputs *)

Module Sample.

Definition hello : list byte :=
  Eval cbv in String.list_byte_of_string "web_1  | hello".
Definition banner : list byte :=
  Eval cbv in String.list_byte_of_string "Attaching to web_1".
Definition quiet_display : DisplayWriter := {| answer := λ _ p, (len p, None) |}.
Definition no_sinks : Sinks := {| displayed := []; dispatched := [] |}.

(** One order [range] may take. *)
Definition in_order (A : Type) (m : gmap model.ManifestName A) :
    list (model.ManifestName * A) :=
  map_to_list m.

Definition web : ManifestState :=
  {| Manifest_of := {| Name := "web"; backend := DockerCompose;
                       locator := "docker-compose.yml" |} |}.
Definition web_k8s : ManifestState :=
  {| Manifest_of := {| Name := "web"; backend := OtherBackend; locator := "" |} |}.
Definition api : ManifestState :=
  {| Manifest_of := {| Name := "api"; backend := OtherBackend; locator := "" |} |}.

(** Watching enabled, [web] a docker-compose service. *)
Definition st_web : RStore :=
  {| RLockState := {| WatchMounts := true;
                      ManifestStates := <["web" := web]> (<["api" := api]> ∅) |} |}.
(** The same with watching disabled. *)
Definition st_off : RStore :=
  {| RLockState := {| WatchMounts := false;
                      ManifestStates := <["web" := web]> (<["api" := api]> ∅) |} |}.
(** Watching enabled, the manifest of [web] removed. *)
Definition st_removed : RStore :=
  {| RLockState := {| WatchMounts := true;
                      ManifestStates := <["api" := api]> ∅ |} |}.
(** Watching enabled, [web] still there, but not as a docker-compose
    service. *)
Definition st_k8s : RStore :=
  {| RLockState := {| WatchMounts := true;
                      ManifestStates := <["web" := web_k8s]> (<["api" := api]> ∅) |} |}.

Definition root : ctx_cell := {| ancestors := []; err := None |}.

(** The record [diff] makes for [web] in a new manager, resuming from [t],
    with context [c] and channel [ch]. *)
Definition w_web (c : ctx_id) (ch : chan_id) (t : time.Time) : dockerComposeLogWatch :=
  {| ctx := c; cancel := CancelOf c; name := "web";
     dcConfigPath := "docker-compose.yml"; startWatchTime := t;
     terminationTime := ch |}.

(** A new manager; the context of [OnChange] is context 0. *)
Definition σ_new : State := NewDockerComposeLogManager [root] [].

(** [web] is being streamed. *)
Definition σ_running : State :=
  {| contexts := [root; {| ancestors := [0%nat]; err := None |}];
     channels := [{| cap := 1; buf := [] |}];
     watches := <["web" := w_web 1%nat 0%nat 0]> ∅;
     trace := [] |}.

(** The task of [web] was cancelled and has left, at time 42. *)
Definition σ_stopped : State :=
  {| contexts := [root; {| ancestors := [0%nat]; err := Some Canceled |}];
     channels := [{| cap := 1; buf := [42] |}];
     watches := <["web" := w_web 1%nat 0%nat 0]> ∅;
     trace := [] |}.

(** After the restart of [web] from there. *)
Definition σ_resumed : State :=
  {| contexts := [root; {| ancestors := [0%nat]; err := Some Canceled |};
                  {| ancestors := [0%nat]; err := None |}];
     channels := [{| cap := 1; buf := [] |}; {| cap := 1; buf := [] |}];
     watches := <["web" := w_web 2%nat 1%nat 42]> ∅;
     trace := [] |}.

(** A manager still streaming [old], which the state no longer has. *)
Definition w_old : dockerComposeLogWatch :=
  {| ctx := 1%nat; cancel := CancelOf 1%nat; name := "old";
     dcConfigPath := "docker-compose.yml"; startWatchTime := 0;
     terminationTime := 0%nat |}.
Definition σ_old : State :=
  {| contexts := [root; {| ancestors := [0%nat]; err := None |}];
     channels := [{| cap := 1; buf := [] |}];
     watches := <["old" := w_old]> ∅;
     trace := [] |}.

(** [web] torn down: the map is empty again, the heap is as it was. *)
Definition σ_torn_down : State :=
  {| contexts := contexts σ_running; channels := channels σ_running;
     watches := ∅; trace := [] |}.

(** The state a computation leaves, for building further samples. *)
Definition state_after {A} (c : outcome (A * State)) (d : State) : State :=
  match c with
  | Returns (_, σ) => σ
  | Blocked => d
  end.

(** [web] is being streamed and its cancel function has been called. *)
Definition σ_cancelled : State :=
  Eval vm_compute in
    state_after (call_cancel (CancelOf 1%nat) σ_running) σ_running.

(** Then its task has left, at time 42. *)
Definition σ_reported : State :=
  Eval vm_compute in
    state_after (consumeLogs_exit (w_web 1%nat 0%nat 0) 42 σ_cancelled)
      σ_cancelled.

(** A stream: the banner, a line, an empty read, the end of the data. *)
Definition logs : Stream :=
  {| reads := [banner; hello; []]; last_read := []; last_err := EOF |}.

(** A client whose streams open, and one whose streams do not. *)
Definition dcc_up : DockerComposeClient :=
  {| StreamLogs := λ _ _ _, inr logs |}.
Definition dcc_down : DockerComposeClient :=
  {| StreamLogs := λ _ _ _, inl (WriteError 1) |}.

(** The task of [web] starts. *)
Definition τ_start : TaskState :=
  {| heap := σ_running; sinks := no_sinks; task_events := [] |}.

End Sample.

(** * Properties *)

(** ** The filter and the writers *)

Lemma Bytes_Equal_eq a b : Bytes.Equal a b = true ↔ a = b.
Proof.
  revert b; induction a as [|x a IH]; intros [|y b]; simpl; try easy.
  rewrite andb_true_iff, IH. split.
  - intros [Hxy ->]. apply Byte.byte_dec_bl in Hxy. by subst.
  - intros [= -> ->]. split; [apply Byte.byte_dec_lb|]; done.
Qed.

Lemma Bytes_HasPrefix_spec s prefix :
  Bytes.HasPrefix s prefix = true ↔ ∃ rest, s = prefix ++ rest.
Proof.
  unfold Bytes.HasPrefix, len. rewrite andb_true_iff, Bytes_Equal_eq, Z.leb_le. split.
  - intros [_ Htake]. exists (drop (length prefix) s).
    rewrite <- Htake at 1. by rewrite take_drop.
  - intros [rest ->]. split.
    + rewrite length_app. lia.
    + by rewrite take_app_length.
Qed.

Lemma shouldFilterDCLog_true p :
  shouldFilterDCLog p = true ↔ ∃ rest, p = noise_prefix ++ rest.
Proof.
  unfold shouldFilterDCLog. rewrite <- Bytes_HasPrefix_spec.
  by destruct (Bytes.HasPrefix p noise_prefix).
Qed.

Lemma shouldFilterDCLog_false p :
  shouldFilterDCLog p = false ↔ ¬ ∃ rest, p = noise_prefix ++ rest.
Proof.
  rewrite <- shouldFilterDCLog_true. by destruct (shouldFilterDCLog p).
Qed.

(** C7. [shouldFilterDCLog] answers [true] exactly on the chunks that begin
    with the noise prefix ["Attaching to "] and [false] on every other chunk;
    a chunk it accepts reaches the sinks as it is: the global writer hands
    the very chunk to its downstream writer, and the action writer dispatches
    an action whose [Log] is the chunk. *)
Theorem filter_rejects_noise_only
    (p : list byte) `{Writer W} (gw : DockerComposeGlobalLogWriter W)
    (dw : DockerComposeGlobalLogWriter DisplayWriter)
    (aw : DockerComposeLogActionWriter) (s : Sinks) :
  (shouldFilterDCLog p = true ↔ ∃ rest, p = noise_prefix ++ rest) ∧
  (shouldFilterDCLog p = false ↔ ¬ ∃ rest, p = noise_prefix ++ rest) ∧
  (shouldFilterDCLog p = false →
     Write gw p s = Write (writer gw) p s ∧
     snd (Write dw p s) =
       {| displayed := displayed s ++ [p]; dispatched := dispatched s |} ∧
     snd (Write aw p s) =
       {| displayed := displayed s;
          dispatched := dispatched s ++
            [{| ManifestName := manifestName aw; Log := p |}] |}).
Proof.
  split; [apply shouldFilterDCLog_true|].
  split; [apply shouldFilterDCLog_false|].
  intros Hp.
  unfold Write, DockerComposeGlobalLogWriter_Write,
    DockerComposeLogActionWriter_Write.
  rewrite Hp. simpl. auto.
Qed.

Lemma filter_rejects_noise_only_witness :
  shouldFilterDCLog Sample.hello = false ∧
  snd (Write {| store := Sample.st_web; manifestName := "web" |}
         Sample.hello Sample.no_sinks) =
    {| displayed := [];
       dispatched := [{| ManifestName := "web"; Log := Sample.hello |}] |}.
Proof.
  split; [reflexivity|].
  apply (filter_rejects_noise_only Sample.hello
           {| writer := Sample.quiet_display |}
           {| writer := Sample.quiet_display |}
           {| store := Sample.st_web; manifestName := "web" |} Sample.no_sinks).
  reflexivity.
Defined.

(** C8. On a chunk the filter rejects, both writers return the full length
    of the chunk and a nil error, and neither sink is called: nothing is
    written to the writer downstream of the global writer (whatever writer
    that is), nothing is dispatched. *)
Theorem writers_swallow_filtered
    (p : list byte) `{Writer W} (gw : DockerComposeGlobalLogWriter W)
    (aw : DockerComposeLogActionWriter) (s : Sinks) :
  shouldFilterDCLog p = true →
  Write gw p s = ((len p, None), s) ∧ Write aw p s = ((len p, None), s).
Proof.
  intros Hp.
  unfold Write, DockerComposeGlobalLogWriter_Write,
    DockerComposeLogActionWriter_Write.
  by rewrite Hp.
Qed.

Lemma writers_swallow_filtered_witness :
  shouldFilterDCLog Sample.banner = true ∧
  Write {| writer := Sample.quiet_display |} Sample.banner Sample.no_sinks =
    ((18, None), Sample.no_sinks) ∧
  Write {| store := Sample.st_web; manifestName := "web" |}
    Sample.banner Sample.no_sinks = ((18, None), Sample.no_sinks).
Proof.
  split; [reflexivity|].
  apply (writers_swallow_filtered Sample.banner
           {| writer := Sample.quiet_display |}
           {| store := Sample.st_web; manifestName := "web" |} Sample.no_sinks).
  reflexivity.
Defined.

(** C10. The empty chunk is not filtered: [shouldFilterDCLog] answers
    [false]; the action writer dispatches an action with an empty log and
    returns [(0, nil)]; the global writer passes the empty chunk on to its
    downstream writer, so the display writer records one empty chunk. *)
Theorem empty_chunk_not_filtered
    `{Writer W} (gw : DockerComposeGlobalLogWriter W)
    (dw : DockerComposeGlobalLogWriter DisplayWriter)
    (aw : DockerComposeLogActionWriter) (s : Sinks) :
  shouldFilterDCLog [] = false ∧
  Write aw [] s =
    ((0, None),
     {| displayed := displayed s;
        dispatched := dispatched s ++
          [{| ManifestName := manifestName aw; Log := [] |}] |}) ∧
  Write gw [] s = Write (writer gw) [] s ∧
  Write dw [] s =
    (answer (writer dw) (displayed s) [],
     {| displayed := displayed s ++ [[]]; dispatched := dispatched s |}).
Proof. repeat split. Qed.

(** ** The reconciliation step *)

Ltac run := unfold mbind, M_bind, mret, M_ret, gets, modify; simpl.

Lemma for_range_app {A B} (body : B → A → M B) l1 l2 acc σ :
  for_range body (l1 ++ l2) acc σ =
  match for_range body l1 acc σ with
  | Returns (acc', σ') => for_range body l2 acc' σ'
  | Blocked => Blocked
  end.
Proof.
  revert acc σ. induction l1 as [|x l1 IH]; intros acc σ; simpl.
  - run. done.
  - run. destruct (body acc x σ) as [[acc1 σ1]|]; [|done]. apply IH.
Qed.

Lemma for_range_cons {A B} (body : B → A → M B) x l acc σ :
  for_range body (x :: l) acc σ =
  match body acc x σ with
  | Returns (acc', σ') => for_range body l acc' σ'
  | Blocked => Blocked
  end.
Proof. reflexivity. Qed.

Lemma entries_of_app n l1 l2 :
  entries_of n (l1 ++ l2) = entries_of n l1 ++ entries_of n l2.
Proof. apply filter_app. Qed.

Lemma entries_of_other n w :
  name w ≠ n → entries_of n [w] = [].
Proof. intros ?. unfold entries_of. by rewrite filter_cons_False, filter_nil. Qed.

Lemma entries_of_own n w :
  name w = n → entries_of n [w] = [w].
Proof. intros ?. unfold entries_of. by rewrite filter_cons_True, filter_nil. Qed.

Lemma Err_in_app cs cs' c :
  (c < length cs)%nat → Err_in (cs ++ cs') c = Err_in cs c.
Proof. intros ?. unfold Err_in. by rewrite lookup_app_l. Qed.

(** The state [start_watch] leaves. *)
Lemma start_watch_eq ctx0 ms t setup σ :
  start_watch ctx0 ms (Manifest_DCInfo (Manifest_of ms)) t setup σ =
  Returns (setup ++ [started σ ms t], with_started ctx0 σ ms t).
Proof. reflexivity. Qed.

Lemma diff_setup_other ctx0 setup ms σ :
  IsDC (Manifest_of ms) = false →
  diff_setup ctx0 setup ms σ = Returns (setup, σ).
Proof. intros H. unfold diff_setup. by rewrite H. Qed.

Lemma diff_setup_new ctx0 setup ms σ :
  IsDC (Manifest_of ms) = true →
  watches σ !! Name (Manifest_of ms) = None →
  diff_setup ctx0 setup ms σ =
  start_watch ctx0 ms (Manifest_DCInfo (Manifest_of ms)) (time.Unix 0 0) setup σ.
Proof. intros H1 H2. unfold diff_setup. rewrite H1. run. by rewrite H2. Qed.

Lemma diff_setup_alive ctx0 setup ms σ w :
  IsDC (Manifest_of ms) = true →
  watches σ !! Name (Manifest_of ms) = Some w →
  Err_in (contexts σ) (ctx w) = None →
  diff_setup ctx0 setup ms σ = Returns (setup, σ).
Proof.
  intros H1 H2 H3. unfold diff_setup. rewrite H1. run. rewrite H2.
  unfold ctx_Err. run. by rewrite H3.
Qed.

Lemma diff_setup_restart ctx0 setup ms σ w n t q :
  IsDC (Manifest_of ms) = true →
  watches σ !! Name (Manifest_of ms) = Some w →
  Err_in (contexts σ) (ctx w) ≠ None →
  channels σ !! terminationTime w = Some {| cap := n; buf := t :: q |} →
  diff_setup ctx0 setup ms σ =
  start_watch ctx0 ms (Manifest_DCInfo (Manifest_of ms)) t setup
    (set_channels <[terminationTime w := {| cap := n; buf := q |}]> σ).
Proof.
  intros H1 H2 H3 H4. unfold diff_setup. rewrite H1. run. rewrite H2.
  unfold ctx_Err. run. destruct (Err_in (contexts σ) (ctx w)); [|done].
  unfold chan_recv. by rewrite H4.
Qed.

Lemma diff_setup_blocked ctx0 setup ms σ w :
  IsDC (Manifest_of ms) = true →
  watches σ !! Name (Manifest_of ms) = Some w →
  Err_in (contexts σ) (ctx w) ≠ None →
  stop_time σ (terminationTime w) = None →
  diff_setup ctx0 setup ms σ = Blocked.
Proof.
  intros H1 H2 H3 H4. unfold diff_setup. rewrite H1. run. rewrite H2.
  unfold ctx_Err. run. destruct (Err_in (contexts σ) (ctx w)); [|done].
  unfold chan_recv. unfold stop_time in H4.
  destruct (channels σ !! terminationTime w) as [[n [|t q]]|]; done.
Qed.

(** Every way one round of the first loop can return. *)
Lemma diff_setup_cases ctx0 setup ms σ setup' σ' :
  diff_setup ctx0 setup ms σ = Returns (setup', σ') →
  (setup' = setup ∧ σ' = σ ∧
   (IsDC (Manifest_of ms) = false ∨
    ∃ w, watches σ !! Name (Manifest_of ms) = Some w ∧
         Err_in (contexts σ) (ctx w) = None)) ∨
  (∃ t σ0, IsDC (Manifest_of ms) = true ∧
     setup' = setup ++ [started σ0 ms t] ∧ σ' = with_started ctx0 σ0 ms t ∧
     ((watches σ !! Name (Manifest_of ms) = None ∧ t = time.Unix 0 0 ∧ σ0 = σ) ∨
      (∃ w n q, watches σ !! Name (Manifest_of ms) = Some w ∧
         Err_in (contexts σ) (ctx w) ≠ None ∧
         channels σ !! terminationTime w = Some {| cap := n; buf := t :: q |} ∧
         σ0 = set_channels <[terminationTime w := {| cap := n; buf := q |}]> σ))).
Proof.
  destruct (IsDC (Manifest_of ms)) eqn:Hdc.
  2:{ rewrite diff_setup_other by done. intros [= <- <-]. left. repeat split; auto. }
  destruct (watches σ !! Name (Manifest_of ms)) as [w|] eqn:Hw.
  2:{ rewrite diff_setup_new, start_watch_eq by done. intros [= <- <-].
      right. exists (time.Unix 0 0), σ. repeat split; auto. }
  destruct (Err_in (contexts σ) (ctx w)) as [e|] eqn:He.
  2:{ erewrite diff_setup_alive by done. intros [= <- <-]. left. repeat split; eauto. }
  destruct (channels σ !! terminationTime w) as [[n [|t q]]|] eqn:Hch.
  - erewrite diff_setup_blocked; [done..| by rewrite He |].
    unfold stop_time. by rewrite Hch.
  - erewrite diff_setup_restart, start_watch_eq; [|done..| by rewrite He |done].
    intros [= <- <-]. right. eexists t, _. repeat split; [done..|].
    right. exists w, n, q. rewrite He. done.
  - erewrite diff_setup_blocked; [done..| by rewrite He |].
    unfold stop_time. by rewrite Hch.
Qed.

Lemma manager_inv_recv σ ch cell :
  manager_inv σ → manager_inv (set_channels <[ch := cell]> σ).
Proof.
  intros [H1 H2]. split; [|done].
  intros k w Hk. simpl. rewrite length_insert. by apply H1.
Qed.

Lemma manager_inv_started ctx0 σ ms t :
  manager_inv σ → manager_inv (with_started ctx0 σ ms t).
Proof.
  intros [H1 H2]. split.
  - intros k w. simpl. rewrite !length_app. simpl.
    rewrite lookup_insert_Some. intros [[<- <-]|[_ Hk]].
    + simpl. split; [done|lia].
    + destruct (H1 _ _ Hk) as (?&?&?). split; [done|lia].
  - intros k1 w1 Hk1 k2 w2 Hk2. simpl in Hk1, Hk2.
    apply lookup_insert_Some in Hk1 as [[<- <-]|[? Hk1]];
      apply lookup_insert_Some in Hk2 as [[<- <-]|[? Hk2]]; simpl.
    + done.
    + destruct (H1 _ _ Hk2) as (?&?&?). lia.
    + destruct (H1 _ _ Hk1) as (?&?&?). lia.
    + by apply H2.
Qed.

(** What one round of the first loop leaves alone. *)
Lemma diff_setup_frame ctx0 setup ms σ setup' σ' :
  manager_inv σ →
  diff_setup ctx0 setup ms σ = Returns (setup', σ') →
  manager_inv σ' ∧
  trace σ' = trace σ ∧
  (∃ cs, contexts σ' = contexts σ ++ cs) ∧
  (∀ k, k ≠ Name (Manifest_of ms) →
     watches σ' !! k = watches σ !! k ∧
     entries_of k setup' = entries_of k setup ∧
     ∀ w, watches σ !! k = Some w →
       channels σ' !! terminationTime w = channels σ !! terminationTime w).
Proof.
  intros Hinv Hrun.
  apply diff_setup_cases in Hrun
    as [(-> & -> & _)|(t & σ0 & Hdc & -> & -> & Hσ0)].
  { split; [done|]. split; [done|].
    split; [exists []; by rewrite app_nil_r|]. done. }
  assert (manager_inv σ0 ∧ contexts σ0 = contexts σ ∧ watches σ0 = watches σ ∧
          trace σ0 = trace σ ∧
          ∀ k w, k ≠ Name (Manifest_of ms) → watches σ !! k = Some w →
            channels σ0 !! terminationTime w = channels σ !! terminationTime w)
    as (Hinv0 & Hcs & Hws & Htr & Hch).
  { destruct Hσ0 as [(_ & _ & ->)|(w & n & q & Hw & _ & _ & ->)]; [done|].
    split; [by apply manager_inv_recv|]. repeat split; try done.
    intros k w' Hk Hw'. simpl. apply list_lookup_insert_ne.
    intros Heq. apply Hk. destruct Hinv as [_ Hinj].
    symmetry. by eapply (Hinj _ _ Hw _ _ Hw'). }
  split; [by apply manager_inv_started|].
  split; [done|]. split; [rewrite <- Hcs; by eexists|].
  intros k Hk. simpl. rewrite lookup_insert_ne, Hws by done.
  split; [done|]. split.
  - rewrite entries_of_app, entries_of_other, app_nil_r; done.
  - intros w Hw. rewrite lookup_app_l; [by eapply Hch|].
    assert (length (channels σ0) = length (channels σ)) as ->.
    { destruct Hσ0 as [(_ & _ & ->)|(? & ? & ? & _ & _ & _ & ->)]; [done|].
      simpl. by rewrite length_insert. }
    destruct Hinv as [Hwf _]. by destruct (Hwf _ _ Hw) as (?&?&?).
Qed.

(** What the whole first loop leaves alone: every source it does not come
    across. *)
Lemma setup_loop_frame ctx0 l setup σ setup' σ' :
  manager_inv σ →
  for_range (diff_setup ctx0) l setup σ = Returns (setup', σ') →
  manager_inv σ' ∧
  trace σ' = trace σ ∧
  (∃ cs, contexts σ' = contexts σ ++ cs) ∧
  (∀ k, k ∉ names l →
     watches σ' !! k = watches σ !! k ∧
     entries_of k setup' = entries_of k setup ∧
     ∀ w, watches σ !! k = Some w →
       channels σ' !! terminationTime w = channels σ !! terminationTime w).
Proof.
  revert setup σ. induction l as [|ms l IH]; intros setup σ Hinv; simpl.
  { intros [= <- <-]. split; [done|]. split; [done|].
    split; [exists []; by rewrite app_nil_r|done]. }
  run. destruct (diff_setup ctx0 setup ms σ) as [[setup1 σ1]|] eqn:Hstep; [|done].
  intros Hrest.
  destruct (diff_setup_frame _ _ _ _ _ _ Hinv Hstep) as (Hinv1 & Htr1 & [cs1 Hcs1] & Hfr1).
  destruct (IH _ _ Hinv1 Hrest) as (Hinv' & Htr' & [cs' Hcs'] & Hfr').
  split; [done|]. split; [congruence|].
  split; [exists (cs1 ++ cs'); by rewrite Hcs', Hcs1, app_assoc|].
  intros k [Hk Hkl]%not_elem_of_cons.
  destruct (Hfr1 k Hk) as (Hw1 & He1 & Hc1).
  destruct (Hfr' k Hkl) as (Hw' & He' & Hc').
  split; [congruence|]. split; [congruence|].
  intros w Hw. rewrite Hc', Hc1; [done..|]. by rewrite Hw1.
Qed.

(** The round of the first loop that deals with a given manifest state, when
    no two manifest states of the loop carry the same name: the state it starts
    in agrees with the initial one on that source, and what it leaves for that
    source is what the loop leaves. *)
Lemma setup_loop_at ctx0 l ms σ setup' σ' :
  NoDup (names l) → ms ∈ l →
  manager_inv σ →
  for_range (diff_setup ctx0) l [] σ = Returns (setup', σ') →
  ∃ setup1 σ1 setup2 σ2,
    diff_setup ctx0 setup1 ms σ1 = Returns (setup2, σ2) ∧
    manager_inv σ1 ∧
    (∃ cs, contexts σ1 = contexts σ ++ cs) ∧
    watches σ1 !! Name (Manifest_of ms) = watches σ !! Name (Manifest_of ms) ∧
    (∀ w, watches σ !! Name (Manifest_of ms) = Some w →
       channels σ1 !! terminationTime w = channels σ !! terminationTime w) ∧
    entries_of (Name (Manifest_of ms)) setup1 = [] ∧
    watches σ' !! Name (Manifest_of ms) = watches σ2 !! Name (Manifest_of ms) ∧
    entries_of (Name (Manifest_of ms)) setup' =
      entries_of (Name (Manifest_of ms)) setup2 ∧
    (∃ cs, contexts σ' = contexts σ2 ++ cs).
Proof.
  intros Hnd Hin Hinv.
  apply list_elem_of_split in Hin as (l1 & l2 & ->).
  unfold names in Hnd. rewrite fmap_app, fmap_cons in Hnd.
  apply NoDup_app in Hnd as (_ & Hl1 & Hl2). apply NoDup_cons in Hl2 as [Hl2 _].
  rewrite for_range_app.
  destruct (for_range (diff_setup ctx0) l1 [] σ) as [[setup1 σ1]|] eqn:H1; [|done].
  simpl. run.
  destruct (diff_setup ctx0 setup1 ms σ1) as [[setup2 σ2]|] eqn:H2; [|done].
  intros H3.
  destruct (setup_loop_frame _ _ _ _ _ _ Hinv H1) as (Hinv1 & _ & Hcs1 & Hfr1).
  destruct (diff_setup_frame _ _ _ _ _ _ Hinv1 H2) as (Hinv2 & _ & _ & _).
  destruct (setup_loop_frame _ _ _ _ _ _ Hinv2 H3) as (_ & _ & Hcs3 & Hfr3).
  destruct (Hfr1 (Name (Manifest_of ms))) as (Hw1 & He1 & Hc1).
  { intros Hin. eapply Hl1; [done|]. apply list_elem_of_here. }
  destruct (Hfr3 (Name (Manifest_of ms)) Hl2) as (Hw3 & He3 & _).
  exists setup1, σ1, setup2, σ2. split_and!; done.
Qed.

(** The first loop returns when nothing it comes across makes it wait. *)
Lemma setup_loop_returns ctx0 l setup σ :
  NoDup (names l) →
  manager_inv σ →
  (∀ ms, ms ∈ l → awaits σ ms = false) →
  ∃ r, for_range (diff_setup ctx0) l setup σ = Returns r.
Proof.
  revert setup σ. induction l as [|ms l IH]; intros setup σ Hnd Hinv Hready; simpl.
  { by eexists. }
  unfold names in Hnd. rewrite fmap_cons in Hnd.
  apply NoDup_cons in Hnd as [Hms Hnd].
  run. destruct (diff_setup ctx0 setup ms σ) as [[setup1 σ1]|] eqn:Hstep.
  - destruct (diff_setup_frame _ _ _ _ _ _ Hinv Hstep) as (Hinv1 & _ & [cs1 Hcs1] & Hfr1).
    apply IH; [done..|].
    intros ms' Hms'. specialize (Hready ms' (list_elem_of_further _ _ _ Hms')).
    assert (Name (Manifest_of ms') ≠ Name (Manifest_of ms)) as Hne.
    { intros Heq. apply Hms. rewrite <- Heq.
      apply (list_elem_of_fmap_2 (λ ms, Name (Manifest_of ms))), Hms'. }
    destruct (Hfr1 _ Hne) as (Hw1 & _ & Hc1).
    unfold awaits in *. rewrite Hw1.
    destruct (IsDC (Manifest_of ms')); [simpl in *|done].
    destruct (watches σ !! Name (Manifest_of ms')) as [w|] eqn:Hw; [|done].
    destruct Hinv as [Hwf _]. destruct (Hwf _ _ Hw) as (_ & Hctx & _).
    rewrite Hcs1, Err_in_app by done.
    unfold stop_time in *. by rewrite (Hc1 _ eq_refl).
  - exfalso. specialize (Hready ms (list_elem_of_here _ _)).
    unfold awaits in Hready.
    destruct (IsDC (Manifest_of ms)) eqn:Hdc.
    2:{ by rewrite diff_setup_other in Hstep. }
    destruct (watches σ !! Name (Manifest_of ms)) as [w|] eqn:Hw.
    2:{ by rewrite diff_setup_new, start_watch_eq in Hstep. }
    simpl in Hready. apply andb_false_iff in Hready as [Hr|Hr].
    + apply bool_decide_eq_false in Hr.
      destruct (Err_in (contexts σ) (ctx w)) eqn:He; [by destruct Hr|].
      by erewrite diff_setup_alive in Hstep.
    + apply bool_decide_eq_false in Hr.
      destruct (Err_in (contexts σ) (ctx w)) eqn:He.
      2:{ by erewrite diff_setup_alive in Hstep. }
      unfold stop_time in Hr.
      destruct (channels σ !! terminationTime w) as [[n [|t q]]|] eqn:Hch; [done| |done].
      erewrite diff_setup_restart, start_watch_eq in Hstep; [done..| by rewrite He |done].
Qed.

(** The second loop: it never waits; it drops from the map exactly the
    entries whose key the state no longer has, and appends their records to
    [teardown] in the order it meets them. *)
Lemma teardown_loop state l teardown σ :
  ∃ σ',
    for_range (diff_teardown state) l teardown σ =
      Returns (teardown ++
                 (snd <$> filter (λ kv, ManifestStates state !! kv.1 = None) l),
               σ') ∧
    contexts σ' = contexts σ ∧ channels σ' = channels σ ∧ trace σ' = trace σ ∧
    (∀ k, ManifestStates state !! k = None → k ∈ l.*1 → watches σ' !! k = None) ∧
    (∀ k, ManifestStates state !! k = None → watches σ !! k = None →
          watches σ' !! k = None) ∧
    (∀ k, is_Some (ManifestStates state !! k) → watches σ' !! k = watches σ !! k).
Proof.
  revert teardown σ. induction l as [|[key value] l IH]; intros teardown σ; simpl.
  { exists σ. rewrite app_nil_r. split_and!; try done.
    intros k _ Hk. by apply elem_of_nil in Hk. }
  run. destruct (ManifestStates state !! key) as [ms|] eqn:Hkey.
  - destruct (IH teardown σ) as (σ' & Hrun & ? & ? & ? & Hgone & Hnone & Hkept).
    exists σ'. rewrite filter_cons_False by (simpl; by rewrite Hkey).
    split_and!; try done.
    intros k Hk [->|Hin]%elem_of_cons; [congruence|]. by apply Hgone.
  - destruct (IH (teardown ++ [value]) (set_watches (delete key) σ))
      as (σ' & Hrun & ? & ? & ? & Hgone & Hnone & Hkept).
    exists σ'. rewrite filter_cons_True by done.
    rewrite fmap_cons. simpl. rewrite <- app_assoc in Hrun. simpl in Hrun.
    split_and!; try done.
    + intros k Hk [->|Hin]%elem_of_cons; [|by apply Hgone].
      destruct (decide (key ∈ l.*1)); [by apply Hgone|].
      apply Hnone; [done|]. simpl. apply lookup_delete_eq.
    + intros k Hk Hw. apply Hnone; [done|]. simpl.
      rewrite lookup_delete_None. by right.
    + intros k Hk. rewrite Hkept by done. simpl.
      apply lookup_delete_ne. intros ->. rewrite Hkey in Hk. by destruct Hk.
Qed.

Lemma entries_of_absent n (P : model.ManifestName * dockerComposeLogWatch → Prop)
    `{∀ kv, Decision (P kv)} l :
  (∀ k w, (k, w) ∈ l → name w = k) →
  (∀ w, (n, w) ∈ l → ¬ P (n, w)) →
  entries_of n (snd <$> filter P l) = [].
Proof.
  intros Hname Hn. induction l as [|[k w] l IH]; [done|].
  assert (entries_of n (snd <$> filter P l) = []) as IH'.
  { apply IH; intros; [apply Hname|apply Hn]; by apply list_elem_of_further. }
  destruct (decide (P (k, w))) as [HP|HP].
  - rewrite filter_cons_True by done. rewrite fmap_cons.
    change (entries_of n ([w] ++ (snd <$> filter P l)) = []).
    rewrite entries_of_app, IH', entries_of_other; [done|].
    rewrite (Hname k w) by apply list_elem_of_here.
    intros ->. by apply (Hn w), HP; apply list_elem_of_here.
  - by rewrite filter_cons_False.
Qed.

Lemma entries_of_present n w (P : model.ManifestName * dockerComposeLogWatch → Prop)
    `{∀ kv, Decision (P kv)} l :
  NoDup l.*1 →
  (∀ k w, (k, w) ∈ l → name w = k) →
  (n, w) ∈ l → P (n, w) →
  entries_of n (snd <$> filter P l) = [w].
Proof.
  intros Hnd Hname Hin HP. induction l as [|[k v] l IH]; [by apply elem_of_nil in Hin|].
  rewrite fmap_cons in Hnd. apply NoDup_cons in Hnd as [Hk Hnd]. simpl in Hk.
  assert (∀ k w, (k, w) ∈ l → name w = k) as Hname'.
  { intros. by apply Hname, list_elem_of_further. }
  apply elem_of_cons in Hin as [[= <- <-]|Hin].
  - rewrite filter_cons_True by done. rewrite fmap_cons.
    change (entries_of n ([w] ++ (snd <$> filter P l)) = [w]).
    rewrite entries_of_app, entries_of_own, entries_of_absent; [done..| |].
    + intros w' Hw'. destruct Hk. apply list_elem_of_fmap. by exists (n, w').
    + apply Hname, list_elem_of_here.
  - assert (k ≠ n) as Hkn.
    { intros ->. destruct Hk. apply list_elem_of_fmap. by exists (n, w). }
    assert (entries_of n [v] = []) as Hv.
    { apply entries_of_other. by rewrite (Hname k v) by apply list_elem_of_here. }
    destruct (decide (P (k, v))).
    + rewrite filter_cons_True by done. rewrite fmap_cons.
      change (entries_of n ([v] ++ (snd <$> filter P l)) = [w]).
      rewrite entries_of_app, Hv. by apply IH.
    + rewrite filter_cons_False by done. by apply IH.
Qed.

Lemma NewDockerComposeLogManager_inv cs chs :
  manager_inv (NewDockerComposeLogManager cs chs).
Proof. split; intros k w Hk; simpl in Hk; by rewrite lookup_empty in Hk. Qed.

Section Reconcile.

Variable range_map : ∀ A : Type, gmap model.ManifestName A → list (model.ManifestName * A).
Hypothesis range_map_perm :
  ∀ A (m : gmap model.ManifestName A), range_map A m ≡ₚ map_to_list m.

Lemma elem_of_range_map {A} (m : gmap model.ManifestName A) k x :
  (k, x) ∈ range_map A m ↔ m !! k = Some x.
Proof. rewrite range_map_perm. apply elem_of_map_to_list. Qed.

Lemma NoDup_range_map {A} (m : gmap model.ManifestName A) :
  NoDup (range_map A m).*1.
Proof. rewrite range_map_perm. apply NoDup_fst_map_to_list. Qed.

Lemma range_map_names state :
  keyed_by_name state →
  names (snd <$> range_map _ (ManifestStates state)) =
  (range_map _ (ManifestStates state)).*1.
Proof.
  intros Hkeyed. unfold names. rewrite <- list_fmap_compose.
  apply list_fmap_ext. intros i [k ms] Hin%list_elem_of_lookup_2.
  apply elem_of_range_map in Hin. simpl. by apply Hkeyed.
Qed.

(** [diff], with watching enabled, is its two loops one after the other. *)
Lemma diff_loops ctx0 st σ setup teardown σ' :
  WatchMounts (RLockState st) = true →
  diff range_map ctx0 st σ = Returns ((setup, teardown), σ') →
  ∃ σ1,
    for_range (diff_setup ctx0)
      (snd <$> range_map _ (ManifestStates (RLockState st))) [] σ =
      Returns (setup, σ1) ∧
    teardown =
      snd <$> filter (λ kv, ManifestStates (RLockState st) !! kv.1 = None)
                (range_map _ (watches σ1)) ∧
    contexts σ' = contexts σ1 ∧ channels σ' = channels σ1 ∧
    trace σ' = trace σ1 ∧
    (∀ k, ManifestStates (RLockState st) !! k = None → watches σ' !! k = None) ∧
    (∀ k, is_Some (ManifestStates (RLockState st) !! k) →
          watches σ' !! k = watches σ1 !! k).
Proof.
  intros Hwm. unfold diff. rewrite Hwm. run.
  destruct (for_range _ _ [] σ) as [[setup1 σ1]|]; [|done].
  destruct (teardown_loop (RLockState st) (range_map _ (watches σ1)) [] σ1)
    as (σ2 & -> & ? & ? & ? & Hgone & Hnone & Hkept).
  simpl. intros [= <- <- <-]. exists σ1. split_and!; try done.
  intros k Hk. destruct (watches σ1 !! k) as [w|] eqn:Hw; [|by apply Hnone].
  apply Hgone; [done|]. apply list_elem_of_fmap. exists (k, w).
  split; [done|]. by apply elem_of_range_map.
Qed.

(** [diff] returns whenever every task it has to restart has reported. *)
Lemma diff_returns ctx0 st σ :
  keyed_by_name (RLockState st) →
  manager_inv σ →
  ready (RLockState st) σ →
  ∃ out σ', diff range_map ctx0 st σ = Returns (out, σ').
Proof.
  intros Hkeyed Hinv Hready. unfold diff.
  destruct (WatchMounts (RLockState st)); simpl; [|by eexists _, _].
  run.
  destruct (setup_loop_returns ctx0
              (snd <$> range_map _ (ManifestStates (RLockState st))) [] σ)
    as [[setup1 σ1] ->]; [| done | |].
  - rewrite range_map_names by done. apply NoDup_range_map.
  - intros ms [[k ms'] [-> Hin%elem_of_range_map]]%list_elem_of_fmap.
    by apply (Hready k).
  - destruct (teardown_loop (RLockState st) (range_map _ (watches σ1)) [] σ1)
      as (σ2 & -> & _). by eexists _, _.
Qed.

(** [diff] keeps the manager's map well formed. *)
Lemma diff_manager_inv ctx0 st σ out σ' :
  manager_inv σ →
  diff range_map ctx0 st σ = Returns (out, σ') →
  manager_inv σ'.
Proof.
  intros Hinv. destruct (WatchMounts (RLockState st)) eqn:Hwm.
  2:{ unfold diff. rewrite Hwm. by intros [= <- <-]. }
  destruct out as [setup teardown]. intros Hrun.
  apply diff_loops in Hrun as (σ1 & Hloop & _ & Hcs & Hchs & _ & Hgone & Hkept);
    [|done].
  apply setup_loop_frame in Hloop as ([Hwf Hinj] & _); [|done].
  assert (∀ k w, watches σ' !! k = Some w → watches σ1 !! k = Some w) as Hsub.
  { intros k w Hk.
    destruct (ManifestStates (RLockState st) !! k) eqn:Hms.
    - by rewrite <- Hkept.
    - by rewrite Hgone in Hk. }
  split.
  - intros k w Hk%Hsub. rewrite Hcs, Hchs. by apply Hwf.
  - intros k1 w1 Hk1%Hsub k2 w2 Hk2%Hsub. by eapply Hinj.
Qed.

(** The round of the first loop that [diff] spends on a manifest state of
    the store, and what becomes of its source by the end of [diff]. *)
Lemma diff_present ctx0 st σ n ms setup teardown σ' :
  WatchMounts (RLockState st) = true →
  keyed_by_name (RLockState st) →
  manager_inv σ →
  ManifestStates (RLockState st) !! n = Some ms →
  diff range_map ctx0 st σ = Returns ((setup, teardown), σ') →
  Name (Manifest_of ms) = n ∧
  ∃ setup1 σ1 setup2 σ2,
    diff_setup ctx0 setup1 ms σ1 = Returns (setup2, σ2) ∧
    (∀ c, (c < length (contexts σ))%nat →
          Err_in (contexts σ1) c = Err_in (contexts σ) c) ∧
    watches σ1 !! n = watches σ !! n ∧
    (∀ w, watches σ !! n = Some w →
       channels σ1 !! terminationTime w = channels σ !! terminationTime w) ∧
    entries_of n setup1 = [] ∧
    watches σ' !! n = watches σ2 !! n ∧
    entries_of n setup = entries_of n setup2 ∧
    entries_of n teardown = [].
Proof.
  intros Hwm Hkeyed Hinv Hms Hrun.
  pose proof (Hkeyed _ _ Hms) as Hname. simpl in Hname. split; [done|].
  apply diff_loops in Hrun as (σa & Hloop & -> & _ & _ & _ & _ & Hkept); [|done].
  pose proof (setup_loop_frame _ _ _ _ _ _ Hinv Hloop) as ([Hwfa _] & _).
  apply (setup_loop_at _ _ ms) in Hloop
    as (setup1 & σ1 & setup2 & σ2 & Hstep & _ & [cs Hcs] & Hw1 & Hc1 & He1 &
        Hw' & He' & _); [| | |done].
  - rewrite Hname in *. exists setup1, σ1, setup2, σ2. split_and!; try done.
    + intros c Hc. by rewrite Hcs, Err_in_app.
    + by rewrite Hkept.
    + apply entries_of_absent.
      * intros k w Hin%elem_of_range_map. by apply Hwfa.
      * intros w _. simpl. by rewrite Hms.
  - rewrite range_map_names by done. apply NoDup_range_map.
  - apply list_elem_of_fmap. exists (n, ms). split; [done|].
    by apply elem_of_range_map.
Qed.

(** A source the store has no manifest for: the first loop passes it by. *)
Lemma diff_absent ctx0 st σ n setup teardown σ' :
  WatchMounts (RLockState st) = true →
  keyed_by_name (RLockState st) →
  manager_inv σ →
  ManifestStates (RLockState st) !! n = None →
  diff range_map ctx0 st σ = Returns ((setup, teardown), σ') →
  entries_of n setup = [] ∧
  watches σ' !! n = None ∧
  entries_of n teardown =
    match watches σ !! n with Some w => [w] | None => [] end.
Proof.
  intros Hwm Hkeyed Hinv Hms Hrun.
  apply diff_loops in Hrun as (σ1 & Hloop & -> & _ & _ & _ & Hgone & _); [|done].
  apply setup_loop_frame in Hloop as ([Hwf1 _] & _ & _ & Hfr); [|done].
  destruct (Hfr n) as (Hw1 & He1 & _).
  { rewrite range_map_names by done.
    intros [[k ms] [-> Hin%elem_of_range_map]]%list_elem_of_fmap.
    simpl in Hms. congruence. }
  split; [done|]. split; [by apply Hgone|].
  assert (∀ k w, (k, w) ∈ range_map _ (watches σ1) → name w = k) as Hnames.
  { intros k w Hin%elem_of_range_map. by apply Hwf1. }
  rewrite <- Hw1. destruct (watches σ1 !! n) as [w|] eqn:Hw.
  - apply entries_of_present; [apply NoDup_range_map|done| |done].
    by apply elem_of_range_map.
  - apply entries_of_absent; [done|].
    intros w Hin%elem_of_range_map. congruence.
Qed.

(** The guard at the head of [diff]: nothing after it is run. *)
Lemma diff_guard ctx0 st :
  WatchMounts (RLockState st) = false →
  diff range_map ctx0 st = mret ([], []).
Proof. intros Hwm. unfold diff. by rewrite Hwm. Qed.

(** C3. With the watching flag ([WatchMounts]) off, [diff] returns a nil
    [setup] and a nil [teardown] whatever the manager's map holds, and leaves
    the map (and everything else) as it was. *)
Theorem diff_not_watching ctx0 st σ :
  WatchMounts (RLockState st) = false →
  diff range_map ctx0 st σ = Returns (([], []), σ).
Proof. intros Hwm. by rewrite diff_guard. Qed.

(** C4. A source that is desired (watching enabled, a docker-compose manifest
    under its name) and has no record in the manager's map gets exactly one
    entry in [setup]; that entry resumes from the epoch, and the very same
    record is stored in the map under the source's name.  [diff] returns
    whenever no restart has to wait for a stop time. *)
Theorem diff_sets_up_new_source ctx0 st σ n :
  keyed_by_name (RLockState st) →
  manager_inv σ →
  desired (RLockState st) n →
  watches σ !! n = None →
  (ready (RLockState st) σ →
   ∃ out σ', diff range_map ctx0 st σ = Returns (out, σ')) ∧
  ∀ setup teardown σ',
    diff range_map ctx0 st σ = Returns ((setup, teardown), σ') →
    ∃ w, entries_of n setup = [w] ∧
         name w = n ∧
         startWatchTime w = time.Unix 0 0 ∧
         watches σ' !! n = Some w.
Proof.
  intros Hkeyed Hinv (Hwm & ms & Hms & Hdc) Hw.
  split; [by apply diff_returns|].
  intros setup teardown σ' Hrun.
  destruct (diff_present _ _ _ _ _ _ _ _ Hwm Hkeyed Hinv Hms Hrun)
    as (Hname & setup1 & σ1 & setup2 & σ2 & Hstep & _ & Hw1 & _ & He1 & Hw' & He' & _).
  rewrite <- Hname in *. rewrite Hw in Hw1.
  rewrite diff_setup_new, start_watch_eq in Hstep by done.
  injection Hstep as <- <-.
  exists (started σ1 ms (time.Unix 0 0)).
  rewrite He', entries_of_app, He1, entries_of_own by done.
  rewrite Hw'. simpl. by rewrite lookup_insert_eq.
Qed.

(** C1. Resume continuity: a record of the map whose context is done and
    whose task has left stop time [T] in its [terminationTime] channel, for a
    source that is still desired, is replaced by [diff]: the new record is the
    one entry of that source in [setup], it is the record the map now holds,
    and its [startWatchTime] is [T]. *)
Theorem diff_resumes_from_stop_time ctx0 st σ n w T :
  keyed_by_name (RLockState st) →
  manager_inv σ →
  desired (RLockState st) n →
  watches σ !! n = Some w →
  Err_in (contexts σ) (ctx w) ≠ None →
  stop_time σ (terminationTime w) = Some T →
  (ready (RLockState st) σ →
   ∃ out σ', diff range_map ctx0 st σ = Returns (out, σ')) ∧
  ∀ setup teardown σ',
    diff range_map ctx0 st σ = Returns ((setup, teardown), σ') →
    ∃ w', entries_of n setup = [w'] ∧
          watches σ' !! n = Some w' ∧
          name w' = n ∧
          startWatchTime w' = T.
Proof.
  intros Hkeyed Hinv (Hwm & ms & Hms & Hdc) Hw Herr Hstop.
  split; [by apply diff_returns|].
  intros setup teardown σ' Hrun.
  destruct (diff_present _ _ _ _ _ _ _ _ Hwm Hkeyed Hinv Hms Hrun)
    as (Hname & setup1 & σ1 & setup2 & σ2 & Hstep & Herr1 & Hw1 & Hc1 & He1 &
        Hw' & He' & _).
  rewrite <- Hname in *. rewrite Hw in Hw1.
  destruct Hinv as [Hwf _]. destruct (Hwf _ _ Hw) as (_ & Hctx & _).
  unfold stop_time in Hstop.
  destruct (channels σ !! terminationTime w) as [[c [|t q]]|] eqn:Hch;
    simplify_eq/=.
  erewrite diff_setup_restart, start_watch_eq in Hstep;
    [|done..| by rewrite Herr1 | by rewrite Hc1].
  injection Hstep as <- <-.
  eexists (started _ ms T).
  rewrite He', entries_of_app, He1, entries_of_own by done.
  rewrite Hw'. simpl. by rewrite lookup_insert_eq.
Qed.

(** C5. Idempotence: a source that stays desired and whose record in the map
    has a context without error appears in neither [setup] nor [teardown],
    and keeps its record. *)
Theorem diff_leaves_healthy_watch ctx0 st σ n w :
  keyed_by_name (RLockState st) →
  manager_inv σ →
  desired (RLockState st) n →
  watches σ !! n = Some w →
  Err_in (contexts σ) (ctx w) = None →
  (ready (RLockState st) σ →
   ∃ out σ', diff range_map ctx0 st σ = Returns (out, σ')) ∧
  ∀ setup teardown σ',
    diff range_map ctx0 st σ = Returns ((setup, teardown), σ') →
    entries_of n setup = [] ∧ entries_of n teardown = [] ∧
    watches σ' !! n = Some w.
Proof.
  intros Hkeyed Hinv (Hwm & ms & Hms & Hdc) Hw Herr.
  split; [by apply diff_returns|].
  intros setup teardown σ' Hrun.
  destruct (diff_present _ _ _ _ _ _ _ _ Hwm Hkeyed Hinv Hms Hrun)
    as (Hname & setup1 & σ1 & setup2 & σ2 & Hstep & Herr1 & Hw1 & _ & He1 &
        Hw' & He' & Htd).
  rewrite <- Hname in *. rewrite Hw in Hw1.
  destruct Hinv as [Hwf _]. destruct (Hwf _ _ Hw) as (_ & Hctx & _).
  erewrite diff_setup_alive in Hstep; [|done..| by rewrite Herr1].
  injection Hstep as <- <-.
  split; [congruence|]. split; [done|congruence].
Qed.

(** C9. A record of the map whose manifest is still in the state's manifest
    map without being a docker-compose manifest is left alone: its source
    appears in neither [setup] nor [teardown], and the map still holds the
    same record under its name. *)
Theorem diff_ignores_other_backends ctx0 st σ n w ms :
  keyed_by_name (RLockState st) →
  manager_inv σ →
  watches σ !! n = Some w →
  ManifestStates (RLockState st) !! n = Some ms →
  IsDC (Manifest_of ms) = false →
  (ready (RLockState st) σ →
   ∃ out σ', diff range_map ctx0 st σ = Returns (out, σ')) ∧
  ∀ setup teardown σ',
    diff range_map ctx0 st σ = Returns ((setup, teardown), σ') →
    entries_of n setup = [] ∧ entries_of n teardown = [] ∧
    watches σ' !! n = Some w.
Proof.
  intros Hkeyed Hinv Hw Hms Hdc.
  split; [by apply diff_returns|].
  intros setup teardown σ' Hrun.
  destruct (WatchMounts (RLockState st)) eqn:Hwm.
  2:{ rewrite diff_guard in Hrun by done. by injection Hrun as <- <- <-. }
  destruct (diff_present _ _ _ _ _ _ _ _ Hwm Hkeyed Hinv Hms Hrun)
    as (Hname & setup1 & σ1 & setup2 & σ2 & Hstep & _ & Hw1 & _ & He1 &
        Hw' & He' & Htd).
  rewrite diff_setup_other in Hstep by done. injection Hstep as <- <-.
  split; [congruence|]. split; [done|congruence].
Qed.

(** C2, as the code has it.  With watching enabled, a record of the map whose
    name has no manifest at all in the state's manifest map gets exactly one
    entry in [teardown], the record itself, and is removed from the map (and
    its source gets no entry in [setup]). *)
Theorem diff_tears_down_removed_source ctx0 st σ n w :
  keyed_by_name (RLockState st) →
  manager_inv σ →
  WatchMounts (RLockState st) = true →
  ManifestStates (RLockState st) !! n = None →
  watches σ !! n = Some w →
  (ready (RLockState st) σ →
   ∃ out σ', diff range_map ctx0 st σ = Returns (out, σ')) ∧
  ∀ setup teardown σ',
    diff range_map ctx0 st σ = Returns ((setup, teardown), σ') →
    entries_of n teardown = [w] ∧ watches σ' !! n = None ∧
    entries_of n setup = [].
Proof.
  intros Hkeyed Hinv Hwm Hms Hw.
  split; [by apply diff_returns|].
  intros setup teardown σ' Hrun.
  destruct (diff_absent _ _ _ _ _ _ _ Hwm Hkeyed Hinv Hms Hrun) as (? & ? & Htd).
  by rewrite Hw in Htd.
Qed.

End Reconcile.

(** A task that leaves [consumeLogs] at time [now], its channel still empty,
    leaves [now] as the stop time the next [diff] will read. *)
Lemma consumeLogs_exit_stop_time watch now σ σ' :
  stop_time σ (terminationTime watch) = None →
  consumeLogs_exit watch now σ = Returns (tt, σ') →
  stop_time σ' (terminationTime watch) = Some now ∧
  contexts σ' = contexts σ ∧ watches σ' = watches σ.
Proof.
  unfold consumeLogs_exit, chan_send, stop_time.
  destruct (channels σ !! terminationTime watch) as [[n q]|] eqn:Hch; [|done].
  simpl. intros Hq. case_bool_decide; [|done]. intros [= <-]. simpl.
  rewrite list_lookup_insert_eq by by eapply lookup_lt_Some.
  simpl. destruct q; done.
Qed.

(** ** The lifecycle driver *)

Section Lifecycle.

Variable range_map : ∀ A : Type, gmap model.ManifestName A → list (model.ManifestName * A).
Hypothesis range_map_perm :
  ∀ A (m : gmap model.ManifestName A), range_map A m ≡ₚ map_to_list m.

Lemma diff_setup_trace ctx0 setup ms σ setup' σ' :
  diff_setup ctx0 setup ms σ = Returns (setup', σ') → trace σ' = trace σ.
Proof.
  intros [(_ & -> & _)|(t & σ0 & _ & _ & -> & Hσ0)]%diff_setup_cases; [done|].
  simpl. by destruct Hσ0 as [(_ & _ & ->)|(? & ? & ? & _ & _ & _ & ->)].
Qed.

Lemma setup_loop_trace ctx0 l setup σ setup' σ' :
  for_range (diff_setup ctx0) l setup σ = Returns (setup', σ') →
  trace σ' = trace σ.
Proof.
  revert setup σ. induction l as [|ms l IH]; intros setup σ; simpl.
  { by intros [= _ <-]. }
  run. destruct (diff_setup ctx0 setup ms σ) as [[setup1 σ1]|] eqn:Hstep; [|done].
  intros ->%IH. by eapply diff_setup_trace.
Qed.

(** [diff] itself cancels nothing and launches nothing. *)
Lemma diff_trace ctx0 st σ out σ' :
  diff range_map ctx0 st σ = Returns (out, σ') → trace σ' = trace σ.
Proof.
  unfold diff. destruct (WatchMounts (RLockState st)); simpl.
  2:{ by intros [= _ <-]. }
  run. destruct (for_range _ _ [] σ) as [[setup1 σ1]|] eqn:Hloop; [|done].
  destruct (teardown_loop (RLockState st) (range_map _ (watches σ1)) [] σ1)
    as (σ2 & -> & _ & _ & Htr & _).
  intros [= _ <-]. rewrite Htr. by eapply setup_loop_trace.
Qed.

Lemma cancel_loop teardown σ :
  ∃ σ',
    for_range (λ _ watch, call_cancel (cancel watch)) teardown tt σ =
      Returns (tt, σ') ∧
    trace σ' = trace σ ++ (EvCancel ∘ cancel <$> teardown) ∧
    watches σ' = watches σ ∧ channels σ' = channels σ ∧
    length (contexts σ') = length (contexts σ).
Proof.
  revert σ. induction teardown as [|w l IH]; intros σ.
  { exists σ. simpl. by rewrite app_nil_r. }
  rewrite for_range_cons. cbv beta. destruct (cancel w) as [c] eqn:Hc.
  destruct (IH (set_contexts (imap (cancel_cell c)) (emit (EvCancel (CancelOf c)) σ)))
    as (σ' & Hrun & Htr & Hws & Hchs & Hlen).
  exists σ'. split; [by rewrite <- Hrun|].
  rewrite Htr, Hws, Hchs, Hlen. simpl.
  by rewrite Hc, <- app_assoc, length_imap.
Qed.

Lemma launch_loop st setup σ :
  for_range (λ _ watch, go_consumeLogs watch st) setup tt σ =
  Returns (tt, {| contexts := contexts σ; channels := channels σ;
                  watches := watches σ;
                  trace := trace σ ++ (EvGo <$> setup) |}).
Proof.
  revert σ. induction setup as [|w l IH]; intros σ.
  { simpl. rewrite app_nil_r. by destruct σ. }
  rewrite for_range_cons. cbv beta. unfold go_consumeLogs at 1, modify.
  rewrite IH. simpl. by rewrite <- app_assoc.
Qed.

(** [OnChange] keeps the manager's map well formed, and so does a task that
    leaves: every state the manager gets to see is well formed. *)
Lemma OnChange_manager_inv ctx0 st σ σ' :
  manager_inv σ →
  OnChange range_map ctx0 st σ = Returns (tt, σ') →
  manager_inv σ'.
Proof.
  intros Hinv. unfold OnChange. run.
  destruct (diff range_map ctx0 st σ) as [[[setup teardown] σd]|] eqn:Hdiff;
    [|done].
  apply diff_manager_inv in Hdiff; [|done..].
  destruct (cancel_loop teardown σd) as (σc & -> & _ & Hws & Hchs & Hlen).
  rewrite launch_loop. intros [= <-].
  destruct Hdiff as [Hwf Hinj]. unfold manager_inv. simpl.
  rewrite Hws, Hchs, Hlen. done.
Qed.

Lemma consumeLogs_exit_manager_inv watch now σ σ' :
  manager_inv σ →
  consumeLogs_exit watch now σ = Returns (tt, σ') →
  manager_inv σ'.
Proof.
  intros Hinv. unfold consumeLogs_exit, chan_send.
  destruct (channels σ !! terminationTime watch) as [cell|]; [|done].
  case_bool_decide; [|done]. intros [= <-]. by apply manager_inv_recv.
Qed.

(** C6. Within one call of [OnChange], the cancel function of every entry of
    [teardown] is called before the task of any entry of [setup] is launched:
    the events the call adds are the cancellations of [teardown], in order,
    followed by the launches of [setup], in order, so each cancellation of
    this call comes earlier than each launch of this call.  [OnChange]
    returns whenever its [diff] does. *)
Theorem OnChange_cancels_before_launching ctx0 st σ :
  (∀ out σd, diff range_map ctx0 st σ = Returns (out, σd) →
     ∃ σ', OnChange range_map ctx0 st σ = Returns (tt, σ')) ∧
  ∀ σ', OnChange range_map ctx0 st σ = Returns (tt, σ') →
    ∃ setup teardown σd,
      diff range_map ctx0 st σ = Returns ((setup, teardown), σd) ∧
      trace σ' =
        trace σ ++ (EvCancel ∘ cancel <$> teardown) ++ (EvGo <$> setup) ∧
      ∀ i j w1 f2,
        (length (trace σ) ≤ i)%nat → (length (trace σ) ≤ j)%nat →
        trace σ' !! i = Some (EvGo w1) →
        trace σ' !! j = Some (EvCancel f2) →
        (j < i)%nat.
Proof.
  unfold OnChange. run. split.
  - intros [setup teardown] σd ->.
    destruct (cancel_loop teardown σd) as (σc & -> & _).
    rewrite launch_loop. by eexists.
  - intros σ'.
    destruct (diff range_map ctx0 st σ) as [[[setup teardown] σd]|] eqn:Hdiff;
      [|done].
    destruct (cancel_loop teardown σd) as (σc & -> & Htr & _).
    rewrite launch_loop. intros [= <-].
    exists setup, teardown, σd. split; [done|].
    apply diff_trace in Hdiff. simpl. rewrite Htr, Hdiff, <- app_assoc.
    split; [done|].
    intros i j w1 f2 Hi Hj.
    intros Hgo Hcancel.
    rewrite lookup_app_r in Hgo by done. rewrite lookup_app_r in Hcancel by done.
    assert (j - length (trace σ) < length (EvCancel ∘ cancel <$> teardown))%nat.
    { apply Nat.nle_gt. intros Hle.
      rewrite lookup_app_r in Hcancel by done.
      apply list_elem_of_lookup_2, list_elem_of_fmap in Hcancel as (? & ? & _).
      done. }
    assert (length (EvCancel ∘ cancel <$> teardown) ≤ i - length (trace σ))%nat.
    { apply Nat.nlt_ge. intros Hlt.
      rewrite lookup_app_l in Hgo by done.
      apply list_elem_of_lookup_2, list_elem_of_fmap in Hgo as (? & ? & _).
      done. }
    lia.
Qed.

End Lifecycle.

(** ** The properties at work on sample inputs *)

Lemma in_order_perm A (m : gmap model.ManifestName A) :
  Sample.in_order A m ≡ₚ map_to_list m.
Proof. reflexivity. Qed.


Ltac decided := apply (bool_decide_unpack _); vm_compute; exact I.

Lemma diff_not_watching_witness :
  WatchMounts (RLockState Sample.st_off) = false ∧
  diff Sample.in_order 0%nat Sample.st_off Sample.σ_running =
    Returns (([], []), Sample.σ_running).
Proof.
  split; [reflexivity|].
  apply (diff_not_watching Sample.in_order 0%nat Sample.st_off Sample.σ_running).
  reflexivity.
Defined.

Lemma diff_sets_up_new_source_witness :
  keyed_by_name (RLockState Sample.st_web) ∧
  manager_inv Sample.σ_new ∧
  desired (RLockState Sample.st_web) "web" ∧
  watches Sample.σ_new !! "web" = None ∧
  ∃ w, entries_of "web" [Sample.w_web 1%nat 0%nat 0] = [w] ∧
       name w = "web" ∧
       startWatchTime w = time.Unix 0 0 ∧
       watches Sample.σ_running !! "web" = Some w.
Proof.
  assert (keyed_by_name (RLockState Sample.st_web)) as H1 by decided.
  assert (manager_inv Sample.σ_new) as H2 by decided.
  assert (desired (RLockState Sample.st_web) "web") as H3.
  { split; [reflexivity|]. exists Sample.web. split; reflexivity. }
  assert (watches Sample.σ_new !! "web" = None) as H4 by reflexivity.
  split_and!; [exact H1|exact H2|exact H3|exact H4|].
  apply (proj2 (diff_sets_up_new_source Sample.in_order in_order_perm 0%nat
                  Sample.st_web Sample.σ_new "web" H1 H2 H3 H4)
           [Sample.w_web 1%nat 0%nat 0] [] Sample.σ_running).
  vm_compute. reflexivity.
Defined.

Lemma diff_resumes_from_stop_time_witness :
  keyed_by_name (RLockState Sample.st_web) ∧
  manager_inv Sample.σ_stopped ∧
  desired (RLockState Sample.st_web) "web" ∧
  watches Sample.σ_stopped !! "web" = Some (Sample.w_web 1%nat 0%nat 0) ∧
  Err_in (contexts Sample.σ_stopped) 1%nat ≠ None ∧
  stop_time Sample.σ_stopped 0%nat = Some 42 ∧
  ∃ w', entries_of "web" [Sample.w_web 2%nat 1%nat 42] = [w'] ∧
        watches Sample.σ_resumed !! "web" = Some w' ∧
        name w' = "web" ∧
        startWatchTime w' = 42.
Proof.
  assert (keyed_by_name (RLockState Sample.st_web)) as H1 by decided.
  assert (manager_inv Sample.σ_stopped) as H2 by decided.
  assert (desired (RLockState Sample.st_web) "web") as H3.
  { split; [reflexivity|]. exists Sample.web. split; reflexivity. }
  assert (watches Sample.σ_stopped !! "web" = Some (Sample.w_web 1%nat 0%nat 0))
    as H4 by reflexivity.
  assert (Err_in (contexts Sample.σ_stopped)
            (ctx (Sample.w_web 1%nat 0%nat 0)) ≠ None) as H5
    by (vm_compute; discriminate).
  assert (stop_time Sample.σ_stopped
            (terminationTime (Sample.w_web 1%nat 0%nat 0)) = Some 42)
    as H6 by reflexivity.
  split_and!; [exact H1|exact H2|exact H3|exact H4|exact H5|exact H6|].
  apply (proj2 (diff_resumes_from_stop_time Sample.in_order in_order_perm 0%nat
                  Sample.st_web Sample.σ_stopped "web" _ 42 H1 H2 H3 H4 H5 H6)
           [Sample.w_web 2%nat 1%nat 42] [] Sample.σ_resumed).
  vm_compute. reflexivity.
Defined.

Lemma diff_leaves_healthy_watch_witness :
  keyed_by_name (RLockState Sample.st_web) ∧
  manager_inv Sample.σ_running ∧
  desired (RLockState Sample.st_web) "web" ∧
  watches Sample.σ_running !! "web" = Some (Sample.w_web 1%nat 0%nat 0) ∧
  Err_in (contexts Sample.σ_running) 1%nat = None ∧
  entries_of "web" [] = [] ∧ entries_of "web" [] = [] ∧
  watches Sample.σ_running !! "web" = Some (Sample.w_web 1%nat 0%nat 0).
Proof.
  assert (keyed_by_name (RLockState Sample.st_web)) as H1 by decided.
  assert (manager_inv Sample.σ_running) as H2 by decided.
  assert (desired (RLockState Sample.st_web) "web") as H3.
  { split; [reflexivity|]. exists Sample.web. split; reflexivity. }
  assert (watches Sample.σ_running !! "web" = Some (Sample.w_web 1%nat 0%nat 0))
    as H4 by reflexivity.
  assert (Err_in (contexts Sample.σ_running)
            (ctx (Sample.w_web 1%nat 0%nat 0)) = None) as H5 by reflexivity.
  split_and!; [exact H1|exact H2|exact H3|exact H4|exact H5|..].
  all: apply (proj2 (diff_leaves_healthy_watch Sample.in_order in_order_perm 0%nat
                  Sample.st_web Sample.σ_running "web" _ H1 H2 H3 H4 H5)
           [] [] Sample.σ_running); vm_compute; reflexivity.
Defined.

Lemma diff_ignores_other_backends_witness :
  keyed_by_name (RLockState Sample.st_k8s) ∧
  manager_inv Sample.σ_running ∧
  watches Sample.σ_running !! "web" = Some (Sample.w_web 1%nat 0%nat 0) ∧
  ManifestStates (RLockState Sample.st_k8s) !! "web" = Some Sample.web_k8s ∧
  IsDC (Manifest_of Sample.web_k8s) = false ∧
  entries_of "web" [] = [] ∧ entries_of "web" [] = [] ∧
  watches Sample.σ_running !! "web" = Some (Sample.w_web 1%nat 0%nat 0).
Proof.
  assert (keyed_by_name (RLockState Sample.st_k8s)) as H1 by decided.
  assert (manager_inv Sample.σ_running) as H2 by decided.
  assert (watches Sample.σ_running !! "web" = Some (Sample.w_web 1%nat 0%nat 0))
    as H3 by reflexivity.
  assert (ManifestStates (RLockState Sample.st_k8s) !! "web" = Some Sample.web_k8s)
    as H4 by reflexivity.
  assert (IsDC (Manifest_of Sample.web_k8s) = false) as H5 by reflexivity.
  split_and!; [exact H1|exact H2|exact H3|exact H4|exact H5|..].
  all: apply (proj2 (diff_ignores_other_backends Sample.in_order in_order_perm 0%nat
                  Sample.st_k8s Sample.σ_running "web" _ _ H1 H2 H3 H4 H5)
           [] [] Sample.σ_running); vm_compute; reflexivity.
Defined.

Lemma diff_tears_down_removed_source_witness :
  keyed_by_name (RLockState Sample.st_removed) ∧
  manager_inv Sample.σ_running ∧
  WatchMounts (RLockState Sample.st_removed) = true ∧
  ManifestStates (RLockState Sample.st_removed) !! "web" = None ∧
  watches Sample.σ_running !! "web" = Some (Sample.w_web 1%nat 0%nat 0) ∧
  entries_of "web" [Sample.w_web 1%nat 0%nat 0] = [Sample.w_web 1%nat 0%nat 0] ∧
  watches Sample.σ_torn_down !! "web" = None ∧
  entries_of "web" [] = [].
Proof.
  assert (keyed_by_name (RLockState Sample.st_removed)) as H1 by decided.
  assert (manager_inv Sample.σ_running) as H2 by decided.
  assert (WatchMounts (RLockState Sample.st_removed) = true) as H3 by reflexivity.
  assert (ManifestStates (RLockState Sample.st_removed) !! "web" = None)
    as H4 by reflexivity.
  assert (watches Sample.σ_running !! "web" = Some (Sample.w_web 1%nat 0%nat 0))
    as H5 by reflexivity.
  split_and!; [exact H1|exact H2|exact H3|exact H4|exact H5|..].
  all: apply (proj2 (diff_tears_down_removed_source Sample.in_order in_order_perm
                  0%nat Sample.st_removed Sample.σ_running "web" _ H1 H2 H3 H4 H5)
           [] [Sample.w_web 1%nat 0%nat 0] Sample.σ_torn_down);
    vm_compute; reflexivity.
Defined.

(** C2, as stated, fails.  Taking "desired" as the claim does (watching
    enabled and a docker-compose manifest under the name), a running watch of
    [web] is absent from the desired state both when [web] is still in the
    manifest map as something other than a docker-compose service and when
    watching is disabled; in both cases [diff] returns an empty [teardown] and
    the record stays in the map. *)
Lemma diff_keeps_watch_of_undesired_source :
  ¬ (watches Sample.σ_running !! "web" = Some (Sample.w_web 1%nat 0%nat 0) →
     ¬ desired (RLockState Sample.st_k8s) "web" →
     ∀ setup teardown σ',
       diff Sample.in_order 0%nat Sample.st_k8s Sample.σ_running =
         Returns ((setup, teardown), σ') →
       entries_of "web" teardown = [Sample.w_web 1%nat 0%nat 0] ∧
       watches σ' !! "web" = None) ∧
  ¬ (watches Sample.σ_running !! "web" = Some (Sample.w_web 1%nat 0%nat 0) →
     ¬ desired (RLockState Sample.st_off) "web" →
     ∀ setup teardown σ',
       diff Sample.in_order 0%nat Sample.st_off Sample.σ_running =
         Returns ((setup, teardown), σ') →
       entries_of "web" teardown = [Sample.w_web 1%nat 0%nat 0] ∧
       watches σ' !! "web" = None).
Proof.
  split; intros Hclaim.
  - destruct (Hclaim eq_refl) with (setup := @nil dockerComposeLogWatch)
      (teardown := @nil dockerComposeLogWatch) (σ' := Sample.σ_running)
      as [Htd _].
    + intros (_ & ms & Hms & Hdc). vm_compute in Hms. by simplify_eq.
    + vm_compute. reflexivity.
    + discriminate Htd.
  - destruct (Hclaim eq_refl) with (setup := @nil dockerComposeLogWatch)
      (teardown := @nil dockerComposeLogWatch) (σ' := Sample.σ_running)
      as [Htd _].
    + by intros (Hwm & _).
    + vm_compute. reflexivity.
    + discriminate Htd.
Qed.

Lemma OnChange_cancels_before_launching_witness :
  ∃ σ', OnChange Sample.in_order 0%nat Sample.st_web Sample.σ_old =
          Returns (tt, σ') ∧
        trace σ' = [EvCancel (CancelOf 1%nat); EvGo (Sample.w_web 2%nat 1%nat 0)].
Proof.
  destruct (OnChange_cancels_before_launching Sample.in_order 0%nat
              Sample.st_web Sample.σ_old) as [Hret Horder].
  destruct (Hret ([Sample.w_web 2%nat 1%nat 0], [Sample.w_old])
              (set_watches (λ _, <["web" := Sample.w_web 2%nat 1%nat 0]> ∅)
                 (with_started 0%nat Sample.σ_old Sample.web 0)))
    as [σ' Hrun].
  { vm_compute. reflexivity. }
  exists σ'. split; [exact Hrun|].
  destruct (Horder σ' Hrun) as (setup & teardown & σd & Hdiff & Htr & _).
  rewrite Htr.
  assert (diff Sample.in_order 0%nat Sample.st_web Sample.σ_old =
          Returns (([Sample.w_web 2%nat 1%nat 0], [Sample.w_old]),
                   set_watches (λ _, <["web" := Sample.w_web 2%nat 1%nat 0]> ∅)
                     (with_started 0%nat Sample.σ_old Sample.web 0))) as Hd.
  { vm_compute. reflexivity. }
  rewrite Hd in Hdiff. injection Hdiff as <- <- <-. reflexivity.
Defined.

(** * Further properties of the reconciliation step *)

(** The round of the first loop spent on one manifest state, with what the
    rounds before and after it leave of the heap. *)
Lemma setup_loop_round ctx0 l ms σ setup' σ' :
  NoDup (names l) → ms ∈ l →
  manager_inv σ →
  for_range (diff_setup ctx0) l [] σ = Returns (setup', σ') →
  ∃ setup1 σ1 setup2 σ2,
    diff_setup ctx0 setup1 ms σ1 = Returns (setup2, σ2) ∧
    manager_inv σ1 ∧
    (∃ cs, contexts σ1 = contexts σ ++ cs) ∧
    watches σ1 !! Name (Manifest_of ms) = watches σ !! Name (Manifest_of ms) ∧
    entries_of (Name (Manifest_of ms)) setup1 = [] ∧
    watches σ' !! Name (Manifest_of ms) = watches σ2 !! Name (Manifest_of ms) ∧
    entries_of (Name (Manifest_of ms)) setup' =
      entries_of (Name (Manifest_of ms)) setup2 ∧
    (∃ cs, contexts σ' = contexts σ2 ++ cs) ∧
    (∀ w, watches σ2 !! Name (Manifest_of ms) = Some w →
       channels σ' !! terminationTime w = channels σ2 !! terminationTime w).
Proof.
  intros Hnd Hin Hinv.
  apply list_elem_of_split in Hin as (l1 & l2 & ->).
  unfold names in Hnd. rewrite fmap_app, fmap_cons in Hnd.
  apply NoDup_app in Hnd as (_ & Hl1 & Hl2). apply NoDup_cons in Hl2 as [Hl2 _].
  rewrite for_range_app.
  destruct (for_range (diff_setup ctx0) l1 [] σ) as [[setup1 σ1]|] eqn:H1; [|done].
  rewrite for_range_cons.
  destruct (diff_setup ctx0 setup1 ms σ1) as [[setup2 σ2]|] eqn:H2; [|done].
  intros H3.
  destruct (setup_loop_frame _ _ _ _ _ _ Hinv H1) as (Hinv1 & _ & Hcs1 & Hfr1).
  destruct (diff_setup_frame _ _ _ _ _ _ Hinv1 H2) as (Hinv2 & _ & _ & _).
  destruct (setup_loop_frame _ _ _ _ _ _ Hinv2 H3) as (_ & _ & Hcs3 & Hfr3).
  destruct (Hfr1 (Name (Manifest_of ms))) as (Hw1 & He1 & _).
  { intros Hin. eapply Hl1; [done|]. apply list_elem_of_here. }
  destruct (Hfr3 (Name (Manifest_of ms)) Hl2) as (Hw3 & He3 & Hc3).
  exists setup1, σ1, setup2, σ2. split_and!; done.
Qed.

(** What one round of the first loop does to the heap, whatever the map. *)
Lemma diff_setup_heap ctx0 setup ms σ setup' σ' :
  diff_setup ctx0 setup ms σ = Returns (setup', σ') →
  (∃ cs, contexts σ' = contexts σ ++ cs) ∧
  (length (channels σ) ≤ length (channels σ'))%nat.
Proof.
  intros [(_ & -> & _)|(t & σ0 & _ & _ & -> & Hσ0)]%diff_setup_cases.
  { split; [exists []; by rewrite app_nil_r|done]. }
  simpl. rewrite length_app. simpl.
  destruct Hσ0 as [(_ & _ & ->)|(? & ? & ? & _ & _ & _ & ->)]; simpl.
  - split; [by eexists|lia].
  - rewrite length_insert. split; [by eexists|lia].
Qed.

Lemma setup_loop_heap ctx0 l setup σ setup' σ' :
  for_range (diff_setup ctx0) l setup σ = Returns (setup', σ') →
  (∃ cs, contexts σ' = contexts σ ++ cs) ∧
  (length (channels σ) ≤ length (channels σ'))%nat.
Proof.
  revert setup σ. induction l as [|ms l IH]; intros setup σ.
  { intros [= _ <-]. split; [exists []; by rewrite app_nil_r|done]. }
  rewrite for_range_cons.
  destruct (diff_setup ctx0 setup ms σ) as [[setup1 σ1]|] eqn:Hstep; [|done].
  intros ([cs' Hcs'] & Hlen')%IH.
  apply diff_setup_heap in Hstep as ([cs1 Hcs1] & Hlen1).
  split; [|lia]. exists (cs1 ++ cs'). by rewrite Hcs', Hcs1, app_assoc.
Qed.

(** A round that has nothing to do. *)
Lemma setup_loop_idle ctx0 l setup σ :
  (∀ ms, ms ∈ l → IsDC (Manifest_of ms) = true →
     ∃ w, watches σ !! Name (Manifest_of ms) = Some w ∧
          Err_in (contexts σ) (ctx w) = None) →
  for_range (diff_setup ctx0) l setup σ = Returns (setup, σ).
Proof.
  induction l as [|ms l IH]; intros Hall; [done|].
  rewrite for_range_cons.
  assert (diff_setup ctx0 setup ms σ = Returns (setup, σ)) as ->.
  { destruct (IsDC (Manifest_of ms)) eqn:Hdc; [|by apply diff_setup_other].
    destruct (Hall ms) as (w & Hw & Herr); [apply list_elem_of_here|done|].
    by eapply diff_setup_alive. }
  apply IH. intros ms' Hin. by apply Hall, list_elem_of_further.
Qed.

Lemma teardown_loop_idle state l teardown σ :
  (∀ kv, kv ∈ l → is_Some (ManifestStates state !! kv.1)) →
  for_range (diff_teardown state) l teardown σ = Returns (teardown, σ).
Proof.
  induction l as [|[key value] l IH]; intros Hall; [done|].
  rewrite for_range_cons. simpl.
  destruct (Hall (key, value)) as [ms Hms]; [apply list_elem_of_here|].
  simpl in Hms. rewrite Hms.
  apply IH. intros kv Hin. by apply Hall, list_elem_of_further.
Qed.

(** A list of watches in which every name has at most one entry. *)
Lemma NoDup_names_of_entries (l : list dockerComposeLogWatch) :
  (∀ n, (length (entries_of n l) ≤ 1)%nat) → NoDup (name <$> l).
Proof.
  induction l as [|w l IH]; intros Hone; [constructor|].
  rewrite fmap_cons. apply NoDup_cons. split.
  - intros (w' & Hname & Hin)%list_elem_of_fmap.
    specialize (Hone (name w)). unfold entries_of in Hone.
    rewrite filter_cons_True in Hone by done. simpl in Hone.
    assert (w' ∈ filter (λ w0, name w0 = name w) l) as Hin'
      by by apply list_elem_of_filter.
    destruct (filter (λ w0, name w0 = name w) l); [by apply elem_of_nil in Hin'|].
    simpl in Hone. lia.
  - apply IH. intros n. specialize (Hone n). unfold entries_of in *.
    destruct (decide (name w = n)).
    + rewrite filter_cons_True in Hone by done. simpl in Hone. lia.
    + by rewrite filter_cons_False in Hone.
Qed.

Lemma elem_of_entries_of n w l :
  w ∈ entries_of n l ↔ name w = n ∧ w ∈ l.
Proof. unfold entries_of. by rewrite list_elem_of_filter. Qed.

Section ReconcileMore.

Variable range_map : ∀ A : Type, gmap model.ManifestName A → list (model.ManifestName * A).
Hypothesis range_map_perm :
  ∀ A (m : gmap model.ManifestName A), range_map A m ≡ₚ map_to_list m.

(** The round [diff] spends on a manifest state of the store, seen from the
    end of [diff]. *)
Lemma diff_round ctx0 st σ n ms setup teardown σ' :
  WatchMounts (RLockState st) = true →
  keyed_by_name (RLockState st) →
  manager_inv σ →
  ManifestStates (RLockState st) !! n = Some ms →
  diff range_map ctx0 st σ = Returns ((setup, teardown), σ') →
  Name (Manifest_of ms) = n ∧
  ∃ setup1 σ1 setup2 σ2,
    diff_setup ctx0 setup1 ms σ1 = Returns (setup2, σ2) ∧
    manager_inv σ1 ∧
    (∃ cs, contexts σ1 = contexts σ ++ cs) ∧
    watches σ1 !! n = watches σ !! n ∧
    entries_of n setup1 = [] ∧
    watches σ' !! n = watches σ2 !! n ∧
    entries_of n setup = entries_of n setup2 ∧
    (∃ cs, contexts σ' = contexts σ2 ++ cs) ∧
    (∀ w, watches σ2 !! n = Some w →
       channels σ' !! terminationTime w = channels σ2 !! terminationTime w).
Proof.
  intros Hwm Hkeyed Hinv Hms Hrun.
  pose proof (Hkeyed _ _ Hms) as Hname. simpl in Hname. split; [done|].
  apply (diff_loops _ range_map_perm) in Hrun
    as (σa & Hloop & -> & Hcs & Hchs & _ & _ & Hkept); [|done].
  apply (setup_loop_round _ _ ms) in Hloop
    as (setup1 & σ1 & setup2 & σ2 & Hstep & Hinv1 & Hcs1 & Hw1 & He1 &
        Hw' & He' & Hcs' & Hch'); [| | |done].
  - rewrite Hname in *. exists setup1, σ1, setup2, σ2. split_and!; try done.
    + by rewrite Hkept.
    + by rewrite Hcs.
    + intros w Hw. rewrite Hchs. by apply Hch'.
  - rewrite (range_map_names _ range_map_perm) by done.
    by apply NoDup_range_map.
  - apply list_elem_of_fmap. exists (n, ms). split; [done|].
    by apply elem_of_range_map.
Qed.

(** What [diff] does for a source the store has a manifest for: either it
    has no entry in [setup] and its slot in the map is as before, or it has
    one entry, a record made in this call. *)
Lemma diff_entry ctx0 st σ n ms setup teardown σ' :
  WatchMounts (RLockState st) = true →
  keyed_by_name (RLockState st) →
  manager_inv σ →
  ManifestStates (RLockState st) !! n = Some ms →
  diff range_map ctx0 st σ = Returns ((setup, teardown), σ') →
  (entries_of n setup = [] ∧ watches σ' !! n = watches σ !! n ∧
   (IsDC (Manifest_of ms) = false ∨
    ∃ w, watches σ !! n = Some w ∧ Err_in (contexts σ) (ctx w) = None ∧
         Err_in (contexts σ') (ctx w) = None)) ∨
  (∃ w, entries_of n setup = [w] ∧
        IsDC (Manifest_of ms) = true ∧
        watches σ' !! n = Some w ∧
        name w = n ∧
        dcConfigPath w = locator (Manifest_of ms) ∧
        cancel w = CancelOf (ctx w) ∧
        channels σ' !! terminationTime w = Some {| cap := 1; buf := [] |} ∧
        (length (contexts σ) ≤ ctx w < length (contexts σ'))%nat ∧
        ((ctx0 < length (contexts σ))%nat →
         Err_in (contexts σ') (ctx w) = Err_in (contexts σ) ctx0) ∧
        match watches σ !! n with
        | Some w0 => Err_in (contexts σ) (ctx w0) ≠ None
        | None => True
        end).
Proof.
  intros Hwm Hkeyed Hinv Hms Hrun.
  destruct (diff_round _ _ _ _ _ _ _ _ Hwm Hkeyed Hinv Hms Hrun)
    as (Hname & setup1 & σ1 & setup2 & σ2 & Hstep & Hinv1 & [cs1 Hcs1] & Hw1 &
        He1 & Hw' & He' & [cs' Hcs'] & Hch').
  rewrite <- Hname in *.
  apply diff_setup_cases in Hstep
    as [(-> & -> & Hwhy)|(t & σ0 & Hdc & -> & -> & Hσ0)].
  - left. split; [congruence|]. split; [congruence|].
    destruct Hwhy as [?|(w & Hw & Herr)]; [by left|right].
    exists w. rewrite <- Hw1. split; [done|].
    destruct Hinv as [Hwf _]. rewrite Hw1 in Hw.
    destruct (Hwf _ _ Hw) as (_ & Hctx & _).
    rewrite Hcs1, Err_in_app in Herr by done. split; [done|].
    rewrite Hcs', Hcs1, <- app_assoc, Err_in_app; done.
  - right. exists (started σ0 ms t).
    assert (contexts σ0 = contexts σ1 ∧ watches σ0 = watches σ1) as [Hcs0 Hws0].
    { by destruct Hσ0 as [(_ & _ & ->)|(? & ? & ? & _ & _ & _ & ->)]. }
    split. { by rewrite He', entries_of_app, He1, entries_of_own. }
    split; [done|].
    split. { rewrite Hw'. simpl. by rewrite lookup_insert_eq. }
    split; [done|]. split; [done|]. split; [done|].
    split.
    { rewrite Hch'; [|simpl; by rewrite lookup_insert_eq].
      simpl. by rewrite lookup_app_r, Nat.sub_diag. }
    split.
    { rewrite Hcs'. simpl. rewrite !length_app, Hcs0, Hcs1, length_app. simpl. lia. }
    split.
    { intros Hctx0. rewrite Hcs'. simpl.
      rewrite Err_in_app by (rewrite length_app; simpl; lia).
      unfold Err_in at 1. rewrite lookup_app_r, Nat.sub_diag by done. simpl.
      by rewrite Hcs0, Hcs1, Err_in_app. }
    rewrite <- Hw1.
    destruct Hσ0 as [(-> & _ & _)|(w0 & c & q & Hw0 & Herr & _ & _)]; [done|].
    rewrite Hw0. destruct Hinv as [Hwf _]. rewrite Hw1 in Hw0.
    destruct (Hwf _ _ Hw0) as (_ & Hctx & _).
    by rewrite Hcs1, Err_in_app in Herr.
Qed.

Lemma diff_map_within_state' ctx0 st σ out σ' k w :
  WatchMounts (RLockState st) = true →
  diff range_map ctx0 st σ = Returns (out, σ') →
  watches σ' !! k = Some w →
  is_Some (ManifestStates (RLockState st) !! k).
Proof.
  intros Hwm Hrun Hk. destruct out as [setup teardown].
  apply (diff_loops _ range_map_perm) in Hrun
    as (σ1 & _ & _ & _ & _ & _ & Hgone & _); [|done].
  destruct (ManifestStates (RLockState st) !! k) eqn:Hms; [done|].
  rewrite Hgone in Hk; done.
Qed.

(** X1. With watching enabled, whatever the map held before, every record
    [diff] leaves in the map is under a name the state has a manifest for. *)
Theorem diff_map_within_state ctx0 st σ out σ' k w :
  WatchMounts (RLockState st) = true →
  diff range_map ctx0 st σ = Returns (out, σ') →
  watches σ' !! k = Some w →
  is_Some (ManifestStates (RLockState st) !! k).
Proof.
  intros Hwm Hrun Hk. destruct out as [setup teardown].
  apply (diff_loops _ range_map_perm) in Hrun
    as (σ1 & _ & _ & _ & _ & _ & Hgone & _); [|done].
  destruct (ManifestStates (RLockState st) !! k) eqn:Hms; [done|].
  by rewrite Hgone in Hk.
Qed.

(** X2. With watching enabled, once [diff] has returned every docker-compose
    manifest of the state has a record in the map, under its name. *)
Theorem diff_covers_compose_manifests ctx0 st σ out σ' n ms :
  WatchMounts (RLockState st) = true →
  keyed_by_name (RLockState st) →
  manager_inv σ →
  ManifestStates (RLockState st) !! n = Some ms →
  IsDC (Manifest_of ms) = true →
  diff range_map ctx0 st σ = Returns (out, σ') →
  ∃ w, watches σ' !! n = Some w ∧ name w = n.
Proof.
  intros Hwm Hkeyed Hinv Hms Hdc Hrun. destruct out as [setup teardown].
  destruct (diff_entry _ _ _ _ _ _ _ _ Hwm Hkeyed Hinv Hms Hrun)
    as [(_ & Hw' & [?|(w & Hw & _)])|(w & _ & _ & Hw' & Hname & _)];
    [congruence| |by exists w].
  exists w. rewrite Hw'. split; [done|].
  destruct Hinv as [Hwf _]. by destruct (Hwf _ _ Hw).
Qed.

(** X3. The sources [diff] sets up are exactly the desired ones that have no
    record yet or whose record has a context that is done. *)
Theorem diff_setup_exactly ctx0 st σ setup teardown σ' n :
  keyed_by_name (RLockState st) →
  manager_inv σ →
  diff range_map ctx0 st σ = Returns ((setup, teardown), σ') →
  (∃ w, w ∈ setup ∧ name w = n) ↔
  desired (RLockState st) n ∧
  match watches σ !! n with
  | Some w0 => Err_in (contexts σ) (ctx w0) ≠ None
  | None => True
  end.
Proof.
  intros Hkeyed Hinv Hrun.
  destruct (WatchMounts (RLockState st)) eqn:Hwm.
  2:{ rewrite diff_guard in Hrun by done. injection Hrun as <- <- <-. split.
      - by intros (w & Hin%elem_of_nil & _).
      - intros [[Hd _] _]. congruence. }
  assert ((∃ w, w ∈ setup ∧ name w = n) ↔ entries_of n setup ≠ []) as ->.
  { split.
    - intros (w & Hin & Hname) Hnil.
      assert (w ∈ entries_of n setup) as Hw by by apply elem_of_entries_of.
      rewrite Hnil in Hw. by apply elem_of_nil in Hw.
    - destruct (entries_of n setup) as [|w l] eqn:He; [done|]. intros _.
      assert (w ∈ entries_of n setup) as Hw by (rewrite He; apply list_elem_of_here).
      apply elem_of_entries_of in Hw as [? ?]. by exists w. }
  destruct (ManifestStates (RLockState st) !! n) as [ms|] eqn:Hms.
  - destruct (diff_entry _ _ _ _ _ _ _ _ Hwm Hkeyed Hinv Hms Hrun)
      as [(-> & _ & Hwhy)|(w & -> & Hdc & _ & _ & _ & _ & _ & _ & _ & Hneed)].
    + split; [done|]. intros [(_ & ms' & Hms' & Hdc) Hneed]. simplify_eq.
      destruct Hwhy as [?|(w & Hw & Herr & _)]; [congruence|].
      by rewrite Hw in Hneed.
    + split; [|done]. intros _. split; [|done]. split; [done|]. by exists ms.
  - destruct (diff_absent _ range_map_perm _ _ _ _ _ _ _ Hwm Hkeyed Hinv Hms Hrun)
      as (-> & _). split; [done|].
    intros [(_ & ms & Hms' & _) _]. congruence.
Qed.

(** X4. No source is set up twice in one call, and every entry of [setup] is
    the record now stored in the map under its name, made for a
    docker-compose manifest of the state, with that manifest's config path
    and the cancel function of its own context. *)
Theorem diff_setup_entries ctx0 st σ setup teardown σ' :
  keyed_by_name (RLockState st) →
  manager_inv σ →
  diff range_map ctx0 st σ = Returns ((setup, teardown), σ') →
  NoDup (name <$> setup) ∧
  ∀ w, w ∈ setup →
    watches σ' !! name w = Some w ∧
    cancel w = CancelOf (ctx w) ∧
    ∃ ms, ManifestStates (RLockState st) !! name w = Some ms ∧
          IsDC (Manifest_of ms) = true ∧
          dcConfigPath w = locator (Manifest_of ms).
Proof.
  intros Hkeyed Hinv Hrun.
  destruct (WatchMounts (RLockState st)) eqn:Hwm.
  2:{ rewrite diff_guard in Hrun by done. injection Hrun as <- <- <-.
      split; [constructor|]. by intros w Hin%elem_of_nil. }
  assert (∀ n, entries_of n setup = [] ∨
            ∃ w ms, entries_of n setup = [w] ∧
              watches σ' !! n = Some w ∧ cancel w = CancelOf (ctx w) ∧
              ManifestStates (RLockState st) !! n = Some ms ∧
              IsDC (Manifest_of ms) = true ∧
              dcConfigPath w = locator (Manifest_of ms)) as Hshape.
  { intros n. destruct (ManifestStates (RLockState st) !! n) as [ms|] eqn:Hms.
    - destruct (diff_entry _ _ _ _ _ _ _ _ Hwm Hkeyed Hinv Hms Hrun)
        as [(-> & _)|(w & -> & Hdc & Hw' & _ & Hpath & Hcancel & _)]; [by left|].
      right. by exists w, ms.
    - destruct (diff_absent _ range_map_perm _ _ _ _ _ _ _ Hwm Hkeyed Hinv Hms Hrun)
        as (-> & _). by left. }
  split.
  - apply NoDup_names_of_entries. intros n.
    destruct (Hshape n) as [->|(w & ms & -> & _)]; simpl; lia.
  - intros w Hin.
    assert (w ∈ entries_of (name w) setup) as Hw by by apply elem_of_entries_of.
    destruct (Hshape (name w)) as [Hnil|(w' & ms & He & Hw' & Hc & Hms & Hdc & Hp)].
    { rewrite Hnil in Hw. by apply elem_of_nil in Hw. }
    rewrite He in Hw. apply list_elem_of_singleton in Hw as ->.
    split; [done|]. split; [done|]. by exists ms.
Qed.

(** X5. With watching enabled, [teardown] holds exactly the records the map
    had under names the state has no manifest for, each once. *)
Theorem diff_teardown_exactly ctx0 st σ setup teardown σ' :
  WatchMounts (RLockState st) = true →
  keyed_by_name (RLockState st) →
  manager_inv σ →
  diff range_map ctx0 st σ = Returns ((setup, teardown), σ') →
  NoDup (name <$> teardown) ∧
  ∀ w, w ∈ teardown ↔
       ∃ k, watches σ !! k = Some w ∧
            ManifestStates (RLockState st) !! k = None.
Proof.
  intros Hwm Hkeyed Hinv Hrun.
  assert (∀ n, entries_of n teardown =
            match ManifestStates (RLockState st) !! n, watches σ !! n with
            | None, Some w => [w]
            | _, _ => []
            end) as Hshape.
  { intros n. destruct (ManifestStates (RLockState st) !! n) as [ms|] eqn:Hms.
    - by destruct (diff_present _ range_map_perm _ _ _ _ _ _ _ _
                     Hwm Hkeyed Hinv Hms Hrun)
        as (_ & ? & ? & ? & ? & _ & _ & _ & _ & _ & _ & _ & ->).
    - destruct (diff_absent _ range_map_perm _ _ _ _ _ _ _ Hwm Hkeyed Hinv Hms Hrun)
        as (_ & _ & ->). by destruct (watches σ !! n). }
  split.
  - apply NoDup_names_of_entries. intros n. rewrite Hshape.
    destruct (ManifestStates (RLockState st) !! n), (watches σ !! n); simpl; lia.
  - intros w. split.
    + intros Hin.
      assert (w ∈ entries_of (name w) teardown) as Hw by by apply elem_of_entries_of.
      rewrite Hshape in Hw. exists (name w).
      destruct (ManifestStates (RLockState st) !! name w);
        [by apply elem_of_nil in Hw|].
      destruct (watches σ !! name w); [|by apply elem_of_nil in Hw].
      by apply list_elem_of_singleton in Hw as ->.
    + intros (k & Hk & Hms).
      assert (name w = k) as Hname.
      { destruct Hinv as [Hwf _]. by destruct (Hwf _ _ Hk). }
      apply (elem_of_entries_of k). rewrite Hshape, Hms, Hk.
      apply list_elem_of_here.
Qed.

(** X6. [diff] reaches a fixed point at once: called again on the state it
    left, with the same store state and a context that is live, it returns
    an empty [setup] and an empty [teardown] and changes nothing. *)
Theorem diff_twice ctx0 st σ out σ' :
  keyed_by_name (RLockState st) →
  manager_inv σ →
  (ctx0 < length (contexts σ))%nat →
  Err_in (contexts σ) ctx0 = None →
  diff range_map ctx0 st σ = Returns (out, σ') →
  diff range_map ctx0 st σ' = Returns (([], []), σ').
Proof.
  intros Hkeyed Hinv Hctx0 Hlive Hrun.
  destruct (WatchMounts (RLockState st)) eqn:Hwm.
  2:{ by rewrite diff_guard. }
  destruct out as [setup teardown].
  unfold diff. rewrite Hwm. simpl. unfold mbind, M_bind.
  rewrite setup_loop_idle.
  2:{ intros ms [[n ms'] [-> Hin]]%list_elem_of_fmap Hdc. simpl in *.
      apply elem_of_range_map in Hin; [|done].
      pose proof (Hkeyed _ _ Hin) as Hname. simpl in Hname. rewrite Hname.
      destruct (diff_entry _ _ _ _ _ _ _ _ Hwm Hkeyed Hinv Hin Hrun)
        as [(_ & Hw' & [?|(w & Hw & _ & Herr)])|
            (w & _ & _ & Hw' & _ & _ & _ & _ & _ & Herr & _)]; [congruence| |].
      - exists w. by rewrite Hw'.
      - exists w. split; [done|]. by rewrite Herr. }
  unfold gets. rewrite teardown_loop_idle; [done|].
  intros [k w] Hin%elem_of_range_map; [|done]. simpl.
  by eapply diff_map_within_state'.
Qed.

Lemma diff_touches_no_context' ctx0 st σ out σ' :
  diff range_map ctx0 st σ = Returns (out, σ') →
  ∀ c, (c < length (contexts σ))%nat → contexts σ' !! c = contexts σ !! c.
Proof.
  unfold diff. destruct (WatchMounts (RLockState st)); simpl.
  2:{ by intros [= _ <-]. }
  unfold mbind, M_bind.
  destruct (for_range _ _ [] σ) as [[setup1 σ1]|] eqn:Hloop; [|done].
  destruct (teardown_loop (RLockState st) (range_map _ (watches σ1)) [] σ1)
    as (σ2 & Hrun2 & Hcs & _).
  unfold gets. rewrite Hrun2. intros [= _ <-].
  apply setup_loop_heap in Hloop as ([cs Hcs1] & _).
  intros c Hc. by rewrite Hcs, Hcs1, lookup_app_l.
Qed.

(** X7. [diff] on its own cancels nothing and launches nothing: it adds no
    event, and every context that existed before the call is as it was
    (new contexts are added behind them). *)
Theorem diff_touches_no_context ctx0 st σ out σ' :
  diff range_map ctx0 st σ = Returns (out, σ') →
  trace σ' = trace σ ∧
  ∀ c, (c < length (contexts σ))%nat → contexts σ' !! c = contexts σ !! c.
Proof.
  intros Hrun. split; [by eapply diff_trace|].
  by eapply diff_touches_no_context'.
Qed.

(** The record [diff] has set up for a source, as [diff] leaves it. *)
Lemma diff_setup_entry ctx0 st σ setup teardown σ' w :
  keyed_by_name (RLockState st) →
  manager_inv σ →
  diff range_map ctx0 st σ = Returns ((setup, teardown), σ') →
  w ∈ setup →
  watches σ' !! name w = Some w ∧
  cancel w = CancelOf (ctx w) ∧
  (ctx w < length (contexts σ'))%nat ∧
  channels σ' !! terminationTime w = Some {| cap := 1; buf := [] |}.
Proof.
  intros Hkeyed Hinv Hrun Hin.
  destruct (WatchMounts (RLockState st)) eqn:Hwm.
  2:{ rewrite diff_guard in Hrun by done. injection Hrun as <- <- <-.
      by apply elem_of_nil in Hin. }
  assert (w ∈ entries_of (name w) setup) as Hw by by apply elem_of_entries_of.
  destruct (ManifestStates (RLockState st) !! name w) as [ms|] eqn:Hms.
  - destruct (diff_entry _ _ _ _ _ _ _ _ Hwm Hkeyed Hinv Hms Hrun)
      as [(He & _)|(w' & He & _ & Hw' & _ & _ & Hc & Hch & Hlen & _)];
      rewrite He in Hw.
    + by apply elem_of_nil in Hw.
    + apply list_elem_of_singleton in Hw as ->. split_and!; try done. lia.
  - destruct (diff_absent _ range_map_perm _ _ _ _ _ _ _ Hwm Hkeyed Hinv Hms Hrun)
      as (He & _). rewrite He in Hw. by apply elem_of_nil in Hw.
Qed.

(** X8. The task launched for an entry of [setup] can always report: its
    channel is new, empty and of capacity one, so the deferred send of
    [consumeLogs] returns at once and leaves the stop time for the next
    [diff] to read. *)
Theorem launched_task_can_report ctx0 st σ setup teardown σ' w now :
  keyed_by_name (RLockState st) →
  manager_inv σ →
  diff range_map ctx0 st σ = Returns ((setup, teardown), σ') →
  w ∈ setup →
  ∃ σ'', consumeLogs_exit w now σ' = Returns (tt, σ'') ∧
         stop_time σ'' (terminationTime w) = Some now ∧
         watches σ'' = watches σ' ∧ contexts σ'' = contexts σ'.
Proof.
  intros Hkeyed Hinv Hrun Hin.
  destruct (diff_setup_entry _ _ _ _ _ _ _ Hkeyed Hinv Hrun Hin)
    as (_ & _ & _ & Hch).
  unfold consumeLogs_exit, chan_send. rewrite Hch. simpl.
  eexists. split; [done|]. unfold stop_time. simpl.
  rewrite list_lookup_insert_eq by by eapply lookup_lt_Some. done.
Qed.

(** Calling a cancel function: the context is done afterwards, a context
    that was done stays done, and the map and the channels are not touched. *)
Lemma Err_in_cancel_self cs c :
  (c < length cs)%nat → Err_in (imap (cancel_cell c) cs) c ≠ None.
Proof.
  intros [cell Hcell]%lookup_lt_is_Some. unfold Err_in.
  rewrite list_lookup_imap, Hcell. simpl. unfold cancel_cell.
  rewrite bool_decide_eq_true_2 by by left.
  by destruct (err cell) eqn:He; simpl; rewrite ?He.
Qed.


Lemma call_cancel_eq c σ :
  call_cancel (CancelOf c) σ =
  Returns (tt, set_contexts (imap (cancel_cell c)) (emit (EvCancel (CancelOf c)) σ)).
Proof. reflexivity. Qed.

Lemma manager_inv_cancel c e σ :
  manager_inv σ →
  manager_inv (set_contexts (imap (cancel_cell c)) (emit e σ)).
Proof.
  intros [Hwf Hinj]. split; [|done].
  intros k w Hk. simpl. rewrite length_imap. by apply Hwf.
Qed.



(** A record to restart, as in the first loop of [diff]. *)
Lemma diff_resume ctx0 st σ n w T setup teardown σ' :
  keyed_by_name (RLockState st) →
  manager_inv σ →
  desired (RLockState st) n →
  watches σ !! n = Some w →
  Err_in (contexts σ) (ctx w) ≠ None →
  stop_time σ (terminationTime w) = Some T →
  diff range_map ctx0 st σ = Returns ((setup, teardown), σ') →
  ∃ w', entries_of n setup = [w'] ∧
        watches σ' !! n = Some w' ∧
        startWatchTime w' = T.
Proof.
  intros Hkeyed Hinv (Hwm & ms & Hms & Hdc) Hw Herr Hstop Hrun.
  destruct (diff_present _ range_map_perm _ _ _ _ _ _ _ _
              Hwm Hkeyed Hinv Hms Hrun)
    as (Hname & setup1 & σ1 & setup2 & σ2 & Hstep & Herr1 & Hw1 & Hc1 & He1 &
        Hw' & He' & _).
  rewrite <- Hname in *. rewrite Hw in Hw1.
  destruct Hinv as [Hwf _]. destruct (Hwf _ _ Hw) as (_ & Hctx & _).
  unfold stop_time in Hstop.
  destruct (channels σ !! terminationTime w) as [[c [|t q]]|] eqn:Hch;
    simplify_eq/=.
  erewrite diff_setup_restart, start_watch_eq in Hstep;
    [|done..| by rewrite Herr1 | by rewrite Hc1].
  injection Hstep as <- <-.
  eexists (started _ ms T).
  rewrite He', entries_of_app, He1, entries_of_own by done.
  rewrite Hw'. simpl. by rewrite lookup_insert_eq.
Qed.

(** X10. The cycle the manager is built for.  [diff] sets a source up; its
    record's cancel function is called; the task leaves [consumeLogs] at time
    [T]; the next [diff], for a state that still wants the source, sets it up
    again with a record that resumes from [T]. *)
Theorem restart_cycle ctx0 st σ setup teardown σ1 w σ2 T σ3
    ctx1 st' setup' teardown' σ4 :
  keyed_by_name (RLockState st) →
  manager_inv σ →
  diff range_map ctx0 st σ = Returns ((setup, teardown), σ1) →
  w ∈ setup →
  call_cancel (cancel w) σ1 = Returns (tt, σ2) →
  consumeLogs_exit w T σ2 = Returns (tt, σ3) →
  keyed_by_name (RLockState st') →
  desired (RLockState st') (name w) →
  diff range_map ctx1 st' σ3 = Returns ((setup', teardown'), σ4) →
  ∃ w', entries_of (name w) setup' = [w'] ∧
        watches σ4 !! name w = Some w' ∧
        startWatchTime w' = T.
Proof.
  intros Hkeyed Hinv Hrun Hin Hcancel Hexit Hkeyed' Hdesired Hrun'.
  destruct (diff_setup_entry _ _ _ _ _ _ _ Hkeyed Hinv Hrun Hin)
    as (Hw & Hc & Hctx & Hch).
  apply (diff_manager_inv _ range_map_perm) in Hrun; [|done].
  rewrite Hc, call_cancel_eq in Hcancel. injection Hcancel as <-.
  pose proof (manager_inv_cancel (ctx w) (EvCancel (CancelOf (ctx w))) _ Hrun)
    as Hinv2.
  pose proof (consumeLogs_exit_manager_inv _ _ _ _ Hinv2 Hexit) as Hinv3.
  apply consumeLogs_exit_stop_time in Hexit as (Hstop & Hcs & Hws).
  2:{ unfold stop_time. simpl. by rewrite Hch. }
  eapply diff_resume; [done..| | | |done].
  - by rewrite Hws.
  - rewrite Hcs. simpl. by apply Err_in_cancel_self.
  - done.
Qed.

(** Where the entries of [teardown] come from. *)
Lemma diff_teardown_elem ctx0 st σ setup teardown σ' w :
  keyed_by_name (RLockState st) →
  manager_inv σ →
  diff range_map ctx0 st σ = Returns ((setup, teardown), σ') →
  w ∈ teardown →
  watches σ !! name w = Some w ∧
  ManifestStates (RLockState st) !! name w = None.
Proof.
  intros Hkeyed Hinv Hrun Hin.
  destruct (WatchMounts (RLockState st)) eqn:Hwm.
  2:{ rewrite diff_guard in Hrun by done. injection Hrun as <- <- <-.
      by apply elem_of_nil in Hin. }
  assert (w ∈ entries_of (name w) teardown) as Hw by by apply elem_of_entries_of.
  destruct (ManifestStates (RLockState st) !! name w) as [ms|] eqn:Hms.
  - destruct (diff_present _ range_map_perm _ _ _ _ _ _ _ _
                Hwm Hkeyed Hinv Hms Hrun)
      as (_ & ? & ? & ? & ? & _ & _ & _ & _ & _ & _ & _ & He).
    rewrite He in Hw. by apply elem_of_nil in Hw.
  - destruct (diff_absent _ range_map_perm _ _ _ _ _ _ _ Hwm Hkeyed Hinv Hms Hrun)
      as (_ & _ & He). rewrite He in Hw.
    destruct (watches σ !! name w); [|by apply elem_of_nil in Hw].
    by apply list_elem_of_singleton in Hw as ->.
Qed.

Lemma cancel_loop_spares teardown σ σ' c :
  for_range (λ _ watch, call_cancel (cancel watch)) teardown tt σ =
    Returns (tt, σ') →
  (∀ w ct, w ∈ teardown → cancel w = CancelOf ct →
           ct ≠ c ∧ ct ∉ ancestors_of (contexts σ) c) →
  contexts σ' !! c = contexts σ !! c.
Proof.
  revert σ. induction teardown as [|w0 l IH]; intros σ.
  { by intros [= <-]. }
  rewrite for_range_cons. cbv beta. destruct (cancel w0) as [ct] eqn:Hct.
  rewrite call_cancel_eq. intros Hrun Hfar.
  destruct (Hfar w0 ct) as [Hne Hanc]; [apply list_elem_of_here|done|].
  assert (imap (cancel_cell ct) (contexts σ) !! c = contexts σ !! c) as Hstep.
  { rewrite list_lookup_imap. unfold ancestors_of, ctx_id in *.
    destruct (contexts σ !! c) as [cell|] eqn:Hcell; [simpl|done].
    unfold cancel_cell. rewrite bool_decide_eq_false_2; [done|].
    intros [?|?]; [by apply Hne|by apply Hanc]. }
  rewrite (IH _ Hrun); [done|].
  intros w ct' Hin Hc. simpl. unfold ancestors_of. rewrite Hstep.
  apply (Hfar w ct'); [by apply list_elem_of_further|done].
Qed.

(** X11. [OnChange] changes the contexts that exist only through the cancel
    functions of the records it removes: a context that none of these
    functions reaches (it is none of theirs and derived from none of theirs)
    is after [OnChange] as it was before. *)
Theorem OnChange_cancels_only_removed ctx0 st σ σ' c :
  keyed_by_name (RLockState st) →
  manager_inv σ →
  (c < length (contexts σ))%nat →
  map_Forall (λ k w,
      ManifestStates (RLockState st) !! k = None →
      ¬ cancels (cancel w) (contexts σ) c) (watches σ) →
  OnChange range_map ctx0 st σ = Returns (tt, σ') →
  contexts σ' !! c = contexts σ !! c.
Proof.
  intros Hkeyed Hinv Hc Hfar. unfold OnChange, mbind, M_bind.
  destruct (diff range_map ctx0 st σ) as [[[setup teardown] σd]|] eqn:Hdiff;
    [|done].
  destruct (cancel_loop teardown σd) as (σc & Hrun & _).
  rewrite Hrun, launch_loop. intros [= <-]. simpl.
  pose proof (diff_touches_no_context' _ _ _ _ _ Hdiff) as Hfr.
  rewrite <- Hfr by done. apply (cancel_loop_spares _ _ _ _ Hrun).
  intros w ct Hin Hct.
  destruct (diff_teardown_elem _ _ _ _ _ _ _ Hkeyed Hinv Hdiff Hin) as [Hw Hms].
  unfold ancestors_of. rewrite Hfr by done.
  pose proof (Hfar _ _ Hw Hms) as Hnot. rewrite Hct in Hnot.
  unfold cancels, ancestors_of in Hnot. split; intros ?; apply Hnot; auto.
Qed.

End ReconcileMore.

(** * Properties of the streaming task *)

(** The writer [consumeLogs] copies to: the global writer, then the action
    writer. *)
Lemma tee_eq display st n p s :
  MultiWriter_Write
    [any_writer {| writer := display |};
     any_writer {| store := st; manifestName := n |}] p s =
  if shouldFilterDCLog p then ((len p, None), s)
  else
    let '(nw, ew) := answer display (displayed s) p in
    let s1 := {| displayed := displayed s ++ [p]; dispatched := dispatched s |} in
    match ew with
    | Some e => ((nw, Some (Passed e)), s1)
    | None =>
        if negb (nw =? len p) then ((nw, Some ErrShortWrite), s1)
        else ((len p, None),
              {| displayed := displayed s ++ [p];
                 dispatched := dispatched s ++
                   [{| ManifestName := n; Log := p |}] |})
    end.
Proof.
  simpl. unfold Write at 1. unfold DockerComposeGlobalLogWriter_Write.
  unfold Write at 2. unfold DockerComposeLogActionWriter_Write.
  destruct (shouldFilterDCLog p) eqn:Hf.
  { simpl. by rewrite Z.eqb_refl. }
  simpl. unfold Write, DisplayWriter_Write.
  destruct (answer display (displayed s) p) as [nw [e|]]; [done|].
  destruct (nw =? len p); simpl; [|done]. by rewrite Z.eqb_refl.
Qed.

(** X12. In the writer [consumeLogs] copies to, the store comes after the
    display writer: a chunk that is not filtered is dispatched when the
    display writer has taken all of it without error, and only then; if the
    display writer fails or comes up short, the write fails and nothing is
    dispatched. *)
Theorem tee_store_after_display display st n p s nw ew :
  shouldFilterDCLog p = false →
  answer display (displayed s) p = (nw, ew) →
  let r := MultiWriter_Write
             [any_writer {| writer := display |};
              any_writer {| store := st; manifestName := n |}] p s in
  displayed (snd r) = displayed s ++ [p] ∧
  (ew = None ∧ nw = len p →
   fst r = (len p, None) ∧
   dispatched (snd r) =
     dispatched s ++ [{| ManifestName := n; Log := p |}]) ∧
  (ew ≠ None ∨ nw ≠ len p →
   snd (fst r) ≠ None ∧ dispatched (snd r) = dispatched s).
Proof.
  intros Hf Hans r. subst r. rewrite tee_eq, Hf, Hans.
  destruct ew as [e|]; simpl.
  - split; [done|]. split; [by intros [? _]|done].
  - destruct (nw =? len p) eqn:Hn; simpl.
    + apply Z.eqb_eq in Hn. split; [done|]. split; [done|].
      by intros [?|?].
    + apply Z.eqb_neq in Hn. split; [done|]. split; [by intros [_ ?]|done].
Qed.

Lemma Copy_write_tee display st n p written s :
  takes_all display →
  ∃ written',
    Copy_write (MultiWriter_Write
                  [any_writer {| writer := display |};
                   any_writer {| store := st; manifestName := n |}])
      p written s =
    ((written', None),
     {| displayed := displayed s ++ filter passes [p];
        dispatched := dispatched s ++
          ((λ p, {| ManifestName := n; Log := p |}) <$> filter passes [p]) |}).
Proof.
  intros Hall. unfold Copy_write. destruct (passes p) eqn:Hp.
  - rewrite filter_cons_True, filter_nil by (rewrite Hp; exact I).
    unfold passes in Hp. apply andb_true_iff in Hp as [Hlen Hf].
    apply negb_true_iff in Hf. rewrite Hlen, tee_eq, Hf, Hall. simpl.
    rewrite !Z.eqb_refl. simpl. rewrite Z.eqb_refl. simpl. by eexists.
  - rewrite filter_cons_False, filter_nil by (rewrite Hp; intros []).
    rewrite !app_nil_r. unfold passes in Hp.
    destruct (0 <? len p) eqn:Hlen; simpl in Hp.
    + apply negb_false_iff in Hp. rewrite tee_eq, Hp. simpl.
      rewrite Z.eqb_refl. simpl. eexists. by destruct s.
    + eexists. by destruct s.
Qed.

Lemma Copy_loop_nil dst last er written s :
  Copy_loop dst [] last er written s =
  let '((written', err), s') := Copy_write dst last written s in
  match err with
  | Some e => ((written', Some e), s')
  | None =>
      match er with
      | EOF => ((written', None), s')
      | _ => ((written', Some er), s')
      end
  end.
Proof. reflexivity. Qed.

Lemma Copy_loop_cons dst p rs last er written s :
  Copy_loop dst (p :: rs) last er written s =
  let '((written', err), s') := Copy_write dst p written s in
  match err with
  | Some e => ((written', Some e), s')
  | None => Copy_loop dst rs last er written' s'
  end.
Proof. reflexivity. Qed.

Lemma Copy_loop_tee display st n rs last er written s :
  takes_all display →
  ∃ written',
    Copy_loop (MultiWriter_Write
                 [any_writer {| writer := display |};
                  any_writer {| store := st; manifestName := n |}])
      rs last er written s =
    ((written', match er with EOF => None | _ => Some er end),
     {| displayed := displayed s ++ filter passes (rs ++ [last]);
        dispatched := dispatched s ++
          ((λ p, {| ManifestName := n; Log := p |}) <$>
             filter passes (rs ++ [last])) |}).
Proof.
  intros Hall. revert written s. induction rs as [|p rs IH]; intros written s.
  - rewrite Copy_loop_nil.
    destruct (Copy_write_tee display st n last written s Hall) as [w' ->].
    exists w'. by destruct er.
  - rewrite Copy_loop_cons.
    destruct (Copy_write_tee display st n p written s Hall) as [w' ->].
    destruct (IH w' {| displayed := displayed s ++ filter passes [p];
                       dispatched := dispatched s ++
                         ((λ p, {| ManifestName := n; Log := p |}) <$>
                            filter passes [p]) |}) as [w'' ->].
    exists w''. simpl.
    change (p :: rs ++ [last]) with ([p] ++ (rs ++ [last])).
    by rewrite !filter_app, !fmap_app, !app_assoc.
Qed.

(** The deferred send, given room in the channel. *)
Lemma consumeLogs_deferred_send_room watch now τ cell :
  channels (heap τ) !! terminationTime watch = Some cell →
  (length (buf cell) < cap cell)%nat →
  consumeLogs_deferred_send watch now τ =
  Returns {| heap := set_channels
               <[terminationTime watch :=
                   {| cap := cap cell; buf := buf cell ++ [now] |}]> (heap τ);
             sinks := sinks τ; task_events := task_events τ |}.
Proof.
  intros Hch Hroom.
  unfold consumeLogs_deferred_send, consumeLogs_exit, chan_send.
  rewrite Hch. by rewrite bool_decide_eq_true_2.
Qed.

Lemma consumeLogs_deferred_send_inv watch now τ τ' :
  consumeLogs_deferred_send watch now τ = Returns τ' →
  ∃ cell,
    channels (heap τ) !! terminationTime watch = Some cell ∧
    (length (buf cell) < cap cell)%nat ∧
    τ' = {| heap := set_channels
              <[terminationTime watch :=
                  {| cap := cap cell; buf := buf cell ++ [now] |}]> (heap τ);
            sinks := sinks τ; task_events := task_events τ |}.
Proof.
  unfold consumeLogs_deferred_send, consumeLogs_exit, chan_send.
  destruct (channels (heap τ) !! terminationTime watch) as [cell|]; [|done].
  case_bool_decide; [|done]. intros [= <-]. by exists cell.
Qed.

(** [consumeLogs] is some work on the sinks and the task's own events,
    followed by the deferred send. *)
Lemma consumeLogs_shape dcc display now watch st τ :
  ∃ s evs,
    consumeLogs dcc display now watch st τ =
    consumeLogs_deferred_send watch now
      {| heap := heap τ; sinks := s; task_events := task_events τ ++ evs |}.
Proof.
  unfold consumeLogs.
  destruct (StreamLogs dcc _ _ _) as [e|r].
  { by exists (sinks τ), [EvInfof (name watch) (Passed e)]. }
  destruct (Copy _ r (sinks τ)) as [[written err] s].
  destruct err as [e|], (Err_in (contexts (heap τ)) (ctx watch)) as [?|] eqn:Hctx;
    simpl; rewrite ?Hctx; unfold task_log; simpl.
  - by exists s, [EvClose].
  - exists s, [EvInfof (name watch) e; EvClose]. by rewrite <- app_assoc.
  - by exists s, [EvClose].
  - by exists s, [EvClose].
Qed.

(** X13. Whatever way a task leaves [consumeLogs] (the stream did not open,
    the copy failed, the data ended), it sends the time exactly once: when
    the channel has room the task returns and the channel holds one value
    more, the time of leaving; and if the task returns at all, the channel
    had room and that is what happened.  The task changes nothing else in
    the heap: no context, no entry of the manager's map. *)
Theorem consumeLogs_sends_once dcc display now watch st τ :
  (∀ cell,
     channels (heap τ) !! terminationTime watch = Some cell →
     (length (buf cell) < cap cell)%nat →
     ∃ τ', consumeLogs dcc display now watch st τ = Returns τ') ∧
  ∀ τ', consumeLogs dcc display now watch st τ = Returns τ' →
    ∃ cell,
      channels (heap τ) !! terminationTime watch = Some cell ∧
      (length (buf cell) < cap cell)%nat ∧
      channels (heap τ') =
        <[terminationTime watch :=
            {| cap := cap cell; buf := buf cell ++ [now] |}]>
          (channels (heap τ)) ∧
      contexts (heap τ') = contexts (heap τ) ∧
      watches (heap τ') = watches (heap τ) ∧
      trace (heap τ') = trace (heap τ).
Proof.
  destruct (consumeLogs_shape dcc display now watch st τ) as (s & evs & ->).
  split.
  - intros cell Hch Hroom.
    erewrite consumeLogs_deferred_send_room; [by eexists|done..].
  - intros τ' (cell & Hch & Hroom & ->)%consumeLogs_deferred_send_inv.
    by exists cell.
Qed.

(** X14. When the stream does not open, [consumeLogs] logs the error and
    leaves: neither sink receives anything, and there is nothing to close. *)
Theorem consumeLogs_open_failure dcc display now watch st τ τ' e :
  StreamLogs dcc (ctx watch) (dcConfigPath watch) (name watch) = inl e →
  consumeLogs dcc display now watch st τ = Returns τ' →
  sinks τ' = sinks τ ∧
  task_events τ' = task_events τ ++ [EvInfof (name watch) (Passed e)].
Proof.
  intros Hopen. unfold consumeLogs. rewrite Hopen.
  by intros (cell & _ & _ & ->)%consumeLogs_deferred_send_inv.
Qed.

(** X15. Once the stream is open it is closed on every way out, exactly
    once and after everything else; and a task whose context is done leaves
    silently: it logs no error, whatever the copy ran into. *)
Theorem consumeLogs_closes_stream dcc display now watch st τ τ' r :
  StreamLogs dcc (ctx watch) (dcConfigPath watch) (name watch) = inr r →
  consumeLogs dcc display now watch st τ = Returns τ' →
  ∃ logged,
    task_events τ' = task_events τ ++ logged ++ [EvClose] ∧
    (EvClose ∉ logged) ∧
    (Err_in (contexts (heap τ)) (ctx watch) ≠ None → logged = []).
Proof.
  intros Hopen. unfold consumeLogs. rewrite Hopen.
  destruct (Copy _ r (sinks τ)) as [[written err] s].
  intros (cell & _ & _ & ->)%consumeLogs_deferred_send_inv. simpl.
  destruct err as [e|], (Err_in (contexts (heap τ)) (ctx watch)) as [?|] eqn:Hctx;
    simpl; rewrite ?Hctx; simpl.
  - exists []. split; [done|]. split; [apply not_elem_of_nil|done].
  - exists [EvInfof (name watch) e]. rewrite <- app_assoc.
    split; [done|]. split; [|done].
    by intros [=]%list_elem_of_singleton.
  - exists []. split; [done|]. split; [apply not_elem_of_nil|done].
  - exists []. split; [done|]. split; [apply not_elem_of_nil|done].
Qed.

(** X16. With a display writer that takes every chunk whole, a task
    delivers the stream to both sinks: the display writer gets the chunks
    read that are neither empty nor filtered, in the order read, and the store
    gets one action per such chunk, in the same order, under the name of the
    watch.  A read error other than the end of the data is logged if the
    context is live. *)
Theorem consumeLogs_delivers dcc display now watch st τ τ' r :
  takes_all display →
  StreamLogs dcc (ctx watch) (dcConfigPath watch) (name watch) = inr r →
  consumeLogs dcc display now watch st τ = Returns τ' →
  displayed (sinks τ') =
    displayed (sinks τ) ++ filter passes (reads r ++ [last_read r]) ∧
  dispatched (sinks τ') =
    dispatched (sinks τ) ++
      ((λ p, {| ManifestName := name watch; Log := p |}) <$>
         filter passes (reads r ++ [last_read r])) ∧
  task_events τ' =
    task_events τ ++
      (match last_err r, Err_in (contexts (heap τ)) (ctx watch) with
       | EOF, _ => []
       | e, None => [EvInfof (name watch) e]
       | _, Some _ => []
       end) ++ [EvClose].
Proof.
  intros Hall Hopen. unfold consumeLogs. rewrite Hopen. unfold Copy.
  destruct (Copy_loop_tee display st (name watch) (reads r) (last_read r)
              (last_err r) 0 (sinks τ) Hall) as [written ->].
  intros (cell & _ & _ & ->)%consumeLogs_deferred_send_inv.
  destruct (last_err r), (Err_in (contexts (heap τ)) (ctx watch)) eqn:Hctx;
    simpl; rewrite ?Hctx; simpl; rewrite <- ?app_assoc; done.
Qed.

(** * Further properties of the filter *)

(** X17. The filter reads the first 13 bytes of a chunk and nothing else: a
    chunk is filtered exactly when its first 13 bytes are, and a chunk of
    fewer than 13 bytes is never filtered. *)
Theorem filter_reads_first_bytes (p : list byte) :
  shouldFilterDCLog p = shouldFilterDCLog (take 13 p) ∧
  ((length p < 13)%nat → shouldFilterDCLog p = false).
Proof.
  unfold shouldFilterDCLog, Bytes.HasPrefix, len.
  change (length noise_prefix) with 13%nat.
  rewrite take_take, Nat.min_id, length_take.
  split.
  - destruct (Nat.le_gt_cases 13 (length p)).
    + replace (13 `min` length p)%nat with 13%nat by lia.
      assert ((Z.of_nat 13 <=? Z.of_nat (length p)) = true) as ->
        by (apply Z.leb_le; lia).
      done.
    + replace (13 `min` length p)%nat with (length p) by lia.
      assert ((Z.of_nat 13 <=? Z.of_nat (length p)) = false) as ->
        by (apply Z.leb_gt; lia).
      done.
  - intros Hlt.
    assert ((Z.of_nat 13 <=? Z.of_nat (length p)) = false) as ->
      by (apply Z.leb_gt; lia).
    done.
Qed.

(** * Properties of the temporary-directory fixture *)

Lemma JoinPaths_loop_eq Join f paths done_ rest :
  length rest = length paths →
  testutils.JoinPaths_loop Join f (length done_) paths (done_ ++ rest) =
  done_ ++ ((λ p, testutils.JoinPath Join f [p]) <$> paths).
Proof.
  revert done_ rest. induction paths as [|p paths IH]; intros done_ rest Hlen.
  { destruct rest; [|done]. by rewrite fmap_nil. }
  destruct rest as [|r rest]; [done|]. simpl.
  rewrite (insert_app_r_alt done_ (r :: rest) (length done_)) by done.
  rewrite Nat.sub_diag. simpl.
  specialize (IH (done_ ++ [testutils.JoinPath Join f [p]]) rest).
  rewrite length_app in IH. simpl in IH. rewrite Nat.add_1_r in IH.
  rewrite <- app_assoc in IH. simpl in IH. rewrite IH by (simpl in Hlen; lia).
  by rewrite <- app_assoc.
Qed.

(** X18. [JoinPaths] joins each path to the fixture's directory on its own:
    the result has one entry per path, in the same order, and entry [i] is
    [JoinPath] of path [i] alone; no entry is left empty by the loop. *)
Theorem JoinPaths_each (Join : list string → string)
    (f : testutils.TempDirFixture) (paths : list string) :
  testutils.JoinPaths Join f paths =
    (λ p, testutils.JoinPath Join f [p]) <$> paths ∧
  length (testutils.JoinPaths Join f paths) = length paths.
Proof.
  assert (testutils.JoinPaths Join f paths =
          (λ p, testutils.JoinPath Join f [p]) <$> paths) as Heq.
  { unfold testutils.JoinPaths.
    apply (JoinPaths_loop_eq Join f paths []). apply length_replicate. }
  split; [done|]. by rewrite Heq, length_fmap.
Qed.

(** * What the manager keeps true from call to call *)

Section Invariants.

Variable range_map : ∀ A : Type, gmap model.ManifestName A → list (model.ManifestName * A).
Hypothesis range_map_perm :
  ∀ A (m : gmap model.ManifestName A), range_map A m ≡ₚ map_to_list m.

Lemma NewDockerComposeLogManager_own_cancel cs chs :
  own_cancel (NewDockerComposeLogManager cs chs).
Proof. intros k w Hk. simpl in Hk. by rewrite lookup_empty in Hk. Qed.

(** X19. The two facts about the manager's map that hold for a new manager
    are kept by every [OnChange]: each record sits under its own name, with a
    context and a channel that exist and a channel of its own, and each
    record holds the cancel function of its own context. *)
Theorem OnChange_keeps_invariants ctx0 st σ σ' :
  keyed_by_name (RLockState st) →
  manager_inv σ →
  own_cancel σ →
  OnChange range_map ctx0 st σ = Returns (tt, σ') →
  manager_inv σ' ∧ own_cancel σ'.
Proof.
  intros Hkeyed Hinv Hown Hrun.
  split; [by eapply OnChange_manager_inv|]. revert Hrun.
  unfold OnChange, mbind, M_bind.
  destruct (diff range_map ctx0 st σ) as [[[setup teardown] σd]|] eqn:Hdiff;
    [|done].
  destruct (cancel_loop teardown σd) as (σc & Hrun & _ & Hws & _).
  rewrite Hrun, launch_loop. intros [= <-].
  intros k w Hk. simpl in Hk. rewrite Hws in Hk.
  destruct (WatchMounts (RLockState st)) eqn:Hwm.
  2:{ rewrite diff_guard in Hdiff by done. injection Hdiff as <- <- <-.
      by apply (Hown k). }
  destruct (diff_map_within_state' _ range_map_perm _ _ _ _ _ _ _ Hwm Hdiff Hk)
    as [ms Hms].
  destruct (diff_entry _ range_map_perm _ _ _ _ _ _ _ _
              Hwm Hkeyed Hinv Hms Hdiff)
    as [(_ & Hw' & _)|(w' & _ & _ & Hw' & _ & _ & Hc & _)].
  - rewrite Hw' in Hk. by apply (Hown k).
  - rewrite Hw' in Hk. by injection Hk as <-.
Qed.

End Invariants.

(** ** The further properties at work on sample inputs *)

Lemma diff_web_new :
  diff Sample.in_order 0%nat Sample.st_web Sample.σ_new =
  Returns (([Sample.w_web 1%nat 0%nat 0], []), Sample.σ_running).
Proof. vm_compute. reflexivity. Qed.

Lemma diff_web_removed :
  diff Sample.in_order 0%nat Sample.st_removed Sample.σ_running =
  Returns (([], [Sample.w_web 1%nat 0%nat 0]), Sample.σ_torn_down).
Proof. vm_compute. reflexivity. Qed.

Lemma diff_map_within_state_witness :
  watches Sample.σ_running !! "web" = Some (Sample.w_web 1%nat 0%nat 0) ∧
  is_Some (ManifestStates (RLockState Sample.st_web) !! "web").
Proof.
  split; [reflexivity|].
  apply (diff_map_within_state Sample.in_order in_order_perm 0%nat
           Sample.st_web Sample.σ_new ([Sample.w_web 1%nat 0%nat 0], [])
           Sample.σ_running "web"
           (Sample.w_web 1%nat 0%nat 0));
    [reflexivity|exact diff_web_new|reflexivity].
Defined.

Lemma diff_covers_compose_manifests_witness :
  ∃ w, watches Sample.σ_running !! "web" = Some w ∧ name w = "web".
Proof.
  apply (diff_covers_compose_manifests Sample.in_order in_order_perm 0%nat
           Sample.st_web Sample.σ_new ([Sample.w_web 1%nat 0%nat 0], [])
           Sample.σ_running "web" Sample.web);
    [reflexivity|decided|decided|reflexivity|reflexivity|exact diff_web_new].
Defined.

Lemma diff_setup_exactly_witness :
  (∃ w, w ∈ [Sample.w_web 1%nat 0%nat 0] ∧ name w = "web") ↔
  desired (RLockState Sample.st_web) "web" ∧
  match watches Sample.σ_new !! "web" with
  | Some w0 => Err_in (contexts Sample.σ_new) (ctx w0) ≠ None
  | None => True
  end.
Proof.
  apply (diff_setup_exactly Sample.in_order in_order_perm 0%nat
           Sample.st_web Sample.σ_new [Sample.w_web 1%nat 0%nat 0] []
           Sample.σ_running "web");
    [decided|decided|exact diff_web_new].
Defined.

Lemma diff_setup_entries_witness :
  NoDup (name <$> [Sample.w_web 1%nat 0%nat 0]) ∧
  ∀ w, w ∈ [Sample.w_web 1%nat 0%nat 0] →
    watches Sample.σ_running !! name w = Some w ∧
    cancel w = CancelOf (ctx w) ∧
    ∃ ms, ManifestStates (RLockState Sample.st_web) !! name w = Some ms ∧
          IsDC (Manifest_of ms) = true ∧
          dcConfigPath w = locator (Manifest_of ms).
Proof.
  apply (diff_setup_entries Sample.in_order in_order_perm 0%nat
           Sample.st_web Sample.σ_new [Sample.w_web 1%nat 0%nat 0] []
           Sample.σ_running);
    [decided|decided|exact diff_web_new].
Defined.

Lemma diff_teardown_exactly_witness :
  NoDup (name <$> [Sample.w_web 1%nat 0%nat 0]) ∧
  ∀ w, w ∈ [Sample.w_web 1%nat 0%nat 0] ↔
       ∃ k, watches Sample.σ_running !! k = Some w ∧
            ManifestStates (RLockState Sample.st_removed) !! k = None.
Proof.
  apply (diff_teardown_exactly Sample.in_order in_order_perm 0%nat
           Sample.st_removed Sample.σ_running [] [Sample.w_web 1%nat 0%nat 0]
           Sample.σ_torn_down);
    [reflexivity|decided|decided|exact diff_web_removed].
Defined.

Lemma diff_twice_witness :
  Err_in (contexts Sample.σ_new) 0%nat = None ∧
  diff Sample.in_order 0%nat Sample.st_web Sample.σ_running =
    Returns (([], []), Sample.σ_running).
Proof.
  split; [reflexivity|].
  apply (diff_twice Sample.in_order in_order_perm 0%nat
           Sample.st_web Sample.σ_new ([Sample.w_web 1%nat 0%nat 0], [])
           Sample.σ_running);
    [decided|decided|simpl; lia|reflexivity|exact diff_web_new].
Defined.

Lemma diff_touches_no_context_witness :
  trace Sample.σ_running = trace Sample.σ_new ∧
  ∀ c, (c < length (contexts Sample.σ_new))%nat →
       contexts Sample.σ_running !! c = contexts Sample.σ_new !! c.
Proof.
  apply (diff_touches_no_context Sample.in_order 0%nat
           Sample.st_web Sample.σ_new ([Sample.w_web 1%nat 0%nat 0], [])
           Sample.σ_running).
  exact diff_web_new.
Defined.

Lemma launched_task_can_report_witness :
  ∃ σ'', consumeLogs_exit (Sample.w_web 1%nat 0%nat 0) 42 Sample.σ_running =
           Returns (tt, σ'') ∧
         stop_time σ'' 0%nat = Some 42 ∧
         watches σ'' = watches Sample.σ_running ∧
         contexts σ'' = contexts Sample.σ_running.
Proof.
  apply (launched_task_can_report Sample.in_order in_order_perm 0%nat
           Sample.st_web Sample.σ_new [Sample.w_web 1%nat 0%nat 0] []
           Sample.σ_running
           (Sample.w_web 1%nat 0%nat 0) 42);
    [decided|decided|exact diff_web_new|apply list_elem_of_here].
Defined.


Lemma restart_cycle_witness :
  call_cancel (CancelOf 1%nat) Sample.σ_running = Returns (tt, Sample.σ_cancelled) ∧
  consumeLogs_exit (Sample.w_web 1%nat 0%nat 0) 42 Sample.σ_cancelled =
    Returns (tt, Sample.σ_reported) ∧
  ∃ setup' teardown' σ4 w',
    diff Sample.in_order 0%nat Sample.st_web Sample.σ_reported =
      Returns ((setup', teardown'), σ4) ∧
    entries_of "web" setup' = [w'] ∧
    watches σ4 !! "web" = Some w' ∧
    startWatchTime w' = 42.
Proof.
  assert (call_cancel (cancel (Sample.w_web 1%nat 0%nat 0)) Sample.σ_running =
          Returns (tt, Sample.σ_cancelled)) as H2 by (vm_compute; reflexivity).
  assert (consumeLogs_exit (Sample.w_web 1%nat 0%nat 0) 42 Sample.σ_cancelled =
          Returns (tt, Sample.σ_reported)) as H3 by (vm_compute; reflexivity).
  split; [exact H2|]. split; [exact H3|].
  destruct (diff Sample.in_order 0%nat Sample.st_web Sample.σ_reported)
    as [[[setup' teardown'] σ4]|] eqn:H4.
  2:{ vm_compute in H4. discriminate H4. }
  exists setup', teardown', σ4.
  destruct (restart_cycle Sample.in_order in_order_perm 0%nat Sample.st_web
              Sample.σ_new [Sample.w_web 1%nat 0%nat 0] [] Sample.σ_running
              (Sample.w_web 1%nat 0%nat 0) Sample.σ_cancelled 42
              Sample.σ_reported 0%nat Sample.st_web setup' teardown' σ4)
    as (w' & He & Hw & Ht);
    [decided|decided|exact diff_web_new|apply list_elem_of_here|exact H2|
     exact H3|decided| |exact H4|].
  - split; [reflexivity|]. exists Sample.web. split; reflexivity.
  - exists w'. exact (conj eq_refl (conj He (conj Hw Ht))).
Defined.

Lemma OnChange_cancels_only_removed_witness :
  ∃ σ', OnChange Sample.in_order 0%nat Sample.st_web Sample.σ_old =
          Returns (tt, σ') ∧
        contexts σ' !! 0%nat = contexts Sample.σ_old !! 0%nat.
Proof.
  destruct (OnChange Sample.in_order 0%nat Sample.st_web Sample.σ_old)
    as [[[] σ']|] eqn:Hrun.
  2:{ vm_compute in Hrun. discriminate Hrun. }
  exists σ'. split; [reflexivity|].
  apply (OnChange_cancels_only_removed Sample.in_order in_order_perm 0%nat
           Sample.st_web Sample.σ_old σ' 0%nat);
    [decided|decided|simpl; lia|decided|exact Hrun].
Defined.

Lemma tee_store_after_display_witness :
  shouldFilterDCLog Sample.hello = false ∧
  dispatched (snd (MultiWriter_Write
    [any_writer {| writer := Sample.quiet_display |};
     any_writer {| store := Sample.st_web; manifestName := "web" |}]
    Sample.hello Sample.no_sinks)) =
  [{| ManifestName := "web"; Log := Sample.hello |}].
Proof.
  split; [reflexivity|].
  apply (tee_store_after_display Sample.quiet_display Sample.st_web "web"
           Sample.hello Sample.no_sinks (len Sample.hello) None);
    [reflexivity|reflexivity|split; reflexivity].
Defined.

Lemma consumeLogs_sends_once_witness :
  ∃ τ', consumeLogs Sample.dcc_up Sample.quiet_display 42
          (Sample.w_web 1%nat 0%nat 0) Sample.st_web Sample.τ_start =
        Returns τ'.
Proof.
  apply (proj1 (consumeLogs_sends_once Sample.dcc_up Sample.quiet_display 42
                  (Sample.w_web 1%nat 0%nat 0) Sample.st_web Sample.τ_start)
           {| cap := 1; buf := [] |});
    [reflexivity|simpl; lia].
Defined.

Lemma consumeLogs_open_failure_witness :
  ∃ τ', consumeLogs Sample.dcc_down Sample.quiet_display 42
          (Sample.w_web 1%nat 0%nat 0) Sample.st_web Sample.τ_start =
        Returns τ' ∧
        sinks τ' = Sample.no_sinks ∧
        task_events τ' = [EvInfof "web" (Passed (WriteError 1))].
Proof.
  destruct (consumeLogs Sample.dcc_down Sample.quiet_display 42
              (Sample.w_web 1%nat 0%nat 0) Sample.st_web Sample.τ_start)
    as [τ'|] eqn:Hrun.
  2:{ vm_compute in Hrun. discriminate Hrun. }
  exists τ'. split; [reflexivity|].
  apply (consumeLogs_open_failure Sample.dcc_down Sample.quiet_display 42
           (Sample.w_web 1%nat 0%nat 0) Sample.st_web Sample.τ_start τ'
           (WriteError 1)); [reflexivity|exact Hrun].
Defined.

Lemma consumeLogs_closes_stream_witness :
  ∃ τ' logged,
    consumeLogs Sample.dcc_up Sample.quiet_display 42
      (Sample.w_web 1%nat 0%nat 0) Sample.st_web Sample.τ_start = Returns τ' ∧
    task_events τ' = [] ++ logged ++ [EvClose].
Proof.
  destruct (consumeLogs Sample.dcc_up Sample.quiet_display 42
              (Sample.w_web 1%nat 0%nat 0) Sample.st_web Sample.τ_start)
    as [τ'|] eqn:Hrun.
  2:{ vm_compute in Hrun. discriminate Hrun. }
  destruct (consumeLogs_closes_stream Sample.dcc_up Sample.quiet_display 42
              (Sample.w_web 1%nat 0%nat 0) Sample.st_web Sample.τ_start τ'
              Sample.logs) as (logged & Hev & _); [reflexivity|exact Hrun|].
  by exists τ', logged.
Defined.

Lemma consumeLogs_delivers_witness :
  ∃ τ',
    consumeLogs Sample.dcc_up Sample.quiet_display 42
      (Sample.w_web 1%nat 0%nat 0) Sample.st_web Sample.τ_start = Returns τ' ∧
    displayed (sinks τ') = [Sample.hello] ∧
    dispatched (sinks τ') = [{| ManifestName := "web"; Log := Sample.hello |}] ∧
    task_events τ' = [EvClose].
Proof.
  destruct (consumeLogs Sample.dcc_up Sample.quiet_display 42
              (Sample.w_web 1%nat 0%nat 0) Sample.st_web Sample.τ_start)
    as [τ'|] eqn:Hrun.
  2:{ vm_compute in Hrun. discriminate Hrun. }
  exists τ'. split; [reflexivity|].
  apply (consumeLogs_delivers Sample.dcc_up Sample.quiet_display 42
           (Sample.w_web 1%nat 0%nat 0) Sample.st_web Sample.τ_start τ'
           Sample.logs); [by intros h p|reflexivity|exact Hrun].
Defined.

Lemma filter_reads_first_bytes_witness :
  shouldFilterDCLog (take 9 Sample.banner) = false.
Proof.
  apply (proj2 (filter_reads_first_bytes (take 9 Sample.banner))).
  simpl. lia.
Defined.

Lemma OnChange_keeps_invariants_witness :
  manager_inv Sample.σ_old ∧ own_cancel Sample.σ_old ∧
  ∃ σ', OnChange Sample.in_order 0%nat Sample.st_web Sample.σ_old =
          Returns (tt, σ') ∧
        manager_inv σ' ∧ own_cancel σ'.
Proof.
  assert (manager_inv Sample.σ_old) as H1 by decided.
  assert (own_cancel Sample.σ_old) as H2 by decided.
  split; [exact H1|]. split; [exact H2|].
  destruct (OnChange Sample.in_order 0%nat Sample.st_web Sample.σ_old)
    as [[[] σ']|] eqn:Hrun.
  2:{ vm_compute in Hrun. discriminate Hrun. }
  exists σ'. split; [reflexivity|].
  apply (OnChange_keeps_invariants Sample.in_order in_order_perm 0%nat
           Sample.st_web Sample.σ_old σ'); [decided|exact H1|exact H2|exact Hrun].
Defined.
